(** * eCFR analyzer: ingestion metrics and read API

    A shallow embedding of the ingestion script (fetchTitle, the three metric
    functions, ingestAll) and of the two read endpoints of backend/index.js
    that the properties below talk about.

    JavaScript values are modelled as the program has them:
    - a string is its sequence of UTF-16 code units ([list N]);
    - a regular expression is a syntax tree run by a backtracking matcher
      with greedy repetition, as the language specification describes it;
    - a Number is an IEEE 754 binary64 value ([float]);
    - awaited calls that can reject return a [result];
    - the MongoDB collection is the list of stored documents, oldest first. *)

From Stdlib Require Import Ascii String.
From Stdlib Require Import ZArith NArith List Bool Lia Floats Uint63.
From Stdlib Require Import DecimalString Permutation Sorted.
From Stdlib Require Import DecimalNat.
Import ListNotations.

Set Implicit Arguments.
#[local] Set Warnings "-inexact-float".

(* ------------------------------------------------------------------------- *)
(** ** JavaScript strings and regular expressions                            *)
(* ------------------------------------------------------------------------- *)

Module JS.

Local Open Scope N_scope.

(** One UTF-16 code unit. *)
Definition char := N.
Definition jsstring := list char.

(** An ASCII literal as a JavaScript string. *)
Definition ofAscii (s : string) : jsstring :=
  map N_of_ascii (list_ascii_of_string s).

Definition sectionMark : char := 167.       (* U+00A7 *)
Definition leftQuote   : char := 8220.      (* U+201C *)
Definition rightQuote  : char := 8221.      (* U+201D *)
Definition fullStop    : char := 46.
Definition lineFeed    : char := 10.
Definition space       : char := 32.

(** [\s], also the characters [trim] strips: WhiteSpace and LineTerminator. *)
Definition isWhiteSpace (c : char) : bool :=
  ((9 <=? c) && (c <=? 13)) || (c =? 32) || (c =? 160) || (c =? 5760)
  || ((8192 <=? c) && (c <=? 8202)) || (c =? 8232) || (c =? 8233)
  || (c =? 8239) || (c =? 8287) || (c =? 12288) || (c =? 65279).

(** [\d] *)
Definition isDigit (c : char) : bool := (48 <=? c) && (c <=? 57).

Definition isChar (a : char) (c : char) : bool := c =? a.
Definition isNotChar (a : char) (c : char) : bool := negb (c =? a).

(** Regular expression syntax: a one-character class, sequence, greedy star. *)
Inductive regex : Type :=
| Cls  (p : char -> bool)
| Seq  (r1 r2 : regex)
| Star (r : regex).

(** [r+] is [r] followed by [r*]. *)
Definition Plus (r : regex) : regex := Seq r (Star r).

(** The backtracking matcher. [rmatch r s k] matches [r] at the front of [s]
    and hands the rest of the input to the continuation [k]; the answer is
    the input left after the whole match, or [None] when every alternative
    fails. A star tries one more iteration first (greedy) and falls back on
    the continuation; an iteration that consumes nothing is rejected, so a
    star on an input of [n] characters iterates at most [n] times. *)
Fixpoint rmatch (r : regex) (s : jsstring)
                (k : jsstring -> option jsstring) {struct r} : option jsstring :=
  match r with
  | Cls p =>
      match s with
      | c :: s' => if p c then k s' else None
      | [] => None
      end
  | Seq r1 r2 => rmatch r1 s (fun s1 => rmatch r2 s1 k)
  | Star r1 =>
      (fix iter (n : nat) (s : jsstring) {struct n} : option jsstring :=
         match n with
         | O => k s
         | S n' =>
             match rmatch r1 s
                     (fun s1 => if (length s1 <? length s)%nat
                                then iter n' s1 else None) with
             | Some e => Some e
             | None => k s
             end
         end) (length s) s
  end.

(** A match anchored at the front of [s]: the input left after it. *)
Definition matchAt (r : regex) (s : jsstring) : option jsstring :=
  rmatch r s Some.

(** Number of code units a match consumed. *)
Definition consumed (s rest : jsstring) : nat := length s - length rest.

(** [s.match(r)] for a global [r], as the length of the result array
    ([null] counts as the empty array, as in [s.match(r) || []]). The scan
    goes left to right; [skip] is the number of positions still covered by
    the previous match; after an empty match the scan advances one position. *)
Fixpoint countMatchesFrom (r : regex) (s : jsstring) (skip : nat) : nat :=
  match s with
  | [] =>
      match skip, matchAt r [] with
      | O, Some _ => 1
      | _, _ => 0
      end
  | _ :: s' =>
      match skip with
      | S n => countMatchesFrom r s' n
      | O =>
          match matchAt r s with
          | Some rest => S (countMatchesFrom r s' (consumed s rest - 1))
          | None => countMatchesFrom r s' 0
          end
      end
  end.

Definition countMatches (r : regex) (s : jsstring) : nat :=
  countMatchesFrom r s 0.

(** [s.match(r)] for a non-global [r]: the text of the leftmost match. *)
Fixpoint firstMatch (r : regex) (s : jsstring) : option jsstring :=
  match matchAt r s with
  | Some rest => Some (firstn (consumed s rest) s)
  | None =>
      match s with
      | [] => None
      | _ :: s' => firstMatch r s'
      end
  end.

(** [s.split(r)]: the loop of RegExp.prototype[Symbol.split] for a regular
    expression without capture groups. [cur] holds, reversed, the characters
    from the end of the last separator up to the scan position; a match is a
    separator unless it is empty and [cur] is empty too. *)
Fixpoint splitLoop (r : regex) (s : jsstring) (skip : nat) (cur : jsstring)
  : list jsstring :=
  match s with
  | [] => [rev cur]
  | c :: s' =>
      match skip with
      | S n => splitLoop r s' n cur
      | O =>
          match matchAt r s with
          | None => splitLoop r s' 0 (c :: cur)
          | Some rest =>
              match consumed s rest, cur with
              | O, [] => splitLoop r s' 0 [c]
              | O, _ :: _ => rev cur :: splitLoop r s' 0 [c]
              | S n, _ => rev cur :: splitLoop r s' n []
              end
          end
      end
  end.

Definition split (r : regex) (s : jsstring) : list jsstring :=
  match s with
  | [] => match matchAt r [] with
          | Some _ => []
          | None => [[]]
          end
  | _ => splitLoop r s 0 []
  end.

Fixpoint dropWhile (p : char -> bool) (s : jsstring) : jsstring :=
  match s with
  | c :: s' => if p c then dropWhile p s' else s
  | [] => []
  end.

(** [s.trim()] *)
Definition trim (s : jsstring) : jsstring :=
  rev (dropWhile isWhiteSpace (rev (dropWhile isWhiteSpace s))).

(** [Boolean(s)] for a string: the empty string is the only falsy one. *)
Definition truthy (s : jsstring) : bool :=
  match s with
  | [] => false
  | _ => true
  end.

(** [parts.join(sep)] *)
Fixpoint join (sep : jsstring) (parts : list jsstring) : jsstring :=
  match parts with
  | [] => []
  | [p] => p
  | p :: ps => p ++ sep ++ join sep ps
  end.

(** [a || b] on an optional string: [undefined] and [''] give [b]. *)
Definition orElse (a : option jsstring) (b : jsstring) : jsstring :=
  match a with
  | Some (c :: s) => c :: s
  | _ => b
  end.

(** A non-negative integer as a Number (exact below 2^53). *)
Definition toNumber (n : nat) : float :=
  PrimFloat.of_uint63 (Uint63.of_Z (Z.of_nat n)).

(** The decimal text of a non-negative integer, as in a template literal. *)
Definition decimal (n : nat) : jsstring :=
  ofAscii (NilEmpty.string_of_uint (Nat.to_uint n)).

(** [parseInt(s, 10)] on a run of decimal digits (exact below 2^53). *)
Definition parseInt10 (s : jsstring) : Z :=
  fold_left (fun acc c => (acc * 10 + (Z.of_N c - 48))%Z) s 0%Z.

End JS.

(* ------------------------------------------------------------------------- *)
(** ** crypto.createHash('sha256').update(text).digest('hex')                *)
(* ------------------------------------------------------------------------- *)

Module Sha256.

Import JS.
Local Open Scope Z_scope.

(** [update(text)] hashes the UTF-8 encoding of the string. A surrogate pair
    is one code point; a lone surrogate is encoded as U+FFFD. *)
Definition isHighSurrogate (c : Z) : bool := (55296 <=? c) && (c <=? 56319).
Definition isLowSurrogate  (c : Z) : bool := (56320 <=? c) && (c <=? 57343).

Fixpoint codePoints (s : jsstring) : list Z :=
  match s with
  | [] => []
  | h :: t =>
      let c := Z.of_N h in
      if isHighSurrogate c then
        match t with
        | l :: t' =>
            if isLowSurrogate (Z.of_N l)
            then (65536 + Z.shiftl (c - 55296) 10 + (Z.of_N l - 56320)) :: codePoints t'
            else 65533 :: codePoints t
        | [] => [65533]
        end
      else if isLowSurrogate c then 65533 :: codePoints t
      else c :: codePoints t
  end.

Definition utf8 (cp : Z) : list Z :=
  if cp <? 128 then [cp]
  else if cp <? 2048 then
    [Z.lor 192 (Z.shiftr cp 6); Z.lor 128 (Z.land cp 63)]
  else if cp <? 65536 then
    [Z.lor 224 (Z.shiftr cp 12); Z.lor 128 (Z.land (Z.shiftr cp 6) 63);
     Z.lor 128 (Z.land cp 63)]
  else
    [Z.lor 240 (Z.shiftr cp 18); Z.lor 128 (Z.land (Z.shiftr cp 12) 63);
     Z.lor 128 (Z.land (Z.shiftr cp 6) 63); Z.lor 128 (Z.land cp 63)].

Definition utf8Encode (s : jsstring) : list Z := flat_map utf8 (codePoints s).

(** 32-bit words with wrap-around. *)
Definition mask32 : Z := 4294967295.
Definition add32 (a b : Z) : Z := Z.land (a + b) mask32.
Definition rotr (n x : Z) : Z :=
  Z.lor (Z.shiftr x n) (Z.land (Z.shiftl x (32 - n)) mask32).
Definition shr (n x : Z) : Z := Z.shiftr x n.
Definition not32 (x : Z) : Z := Z.lxor x mask32.

Definition Ch (x y z : Z) : Z := Z.lxor (Z.land x y) (Z.land (not32 x) z).
Definition Maj (x y z : Z) : Z :=
  Z.lxor (Z.lxor (Z.land x y) (Z.land x z)) (Z.land y z).
Definition bigSigma0 (x : Z) : Z := Z.lxor (Z.lxor (rotr 2 x) (rotr 13 x)) (rotr 22 x).
Definition bigSigma1 (x : Z) : Z := Z.lxor (Z.lxor (rotr 6 x) (rotr 11 x)) (rotr 25 x).
Definition smallSigma0 (x : Z) : Z := Z.lxor (Z.lxor (rotr 7 x) (rotr 18 x)) (shr 3 x).
Definition smallSigma1 (x : Z) : Z := Z.lxor (Z.lxor (rotr 17 x) (rotr 19 x)) (shr 10 x).

(** The constants are the first 32 bits of the fractional parts of the
    roots of the first primes: cube roots of the first sixty-four for the
    round constants, square roots of the first eight for the initial words. *)
Definition isPrime (n : Z) : bool :=
  forallb (fun d => negb (n mod d =? 0)) (map Z.of_nat (seq 2 (Z.to_nat n - 2))).

Definition primes (n : nat) : list Z :=
  firstn n (filter isPrime (map Z.of_nat (seq 2 310))).

(** The largest [r] below 2^40 with [r ^ e <= x], found bit by bit. *)
Definition integerRoot (e x : Z) : Z :=
  fold_left (fun r i =>
               let r' := Z.lor r (Z.shiftl 1 (Z.of_nat i)) in
               if r' ^ e <=? x then r' else r)
            (rev (seq 0 40)) 0.

Definition fractionalBits (e p : Z) : Z :=
  Z.land (integerRoot e (Z.shiftl p (32 * e))) 4294967295.

Definition K : list Z := Eval vm_compute in map (fractionalBits 3) (primes 64).

(** The eight working words. *)
Record state : Type := mkState {
  sa : Z; sb : Z; sc : Z; sd : Z; se : Z; sf : Z; sg : Z; sh : Z
}.

Definition initial : state :=
  Eval vm_compute in
    let h := map (fractionalBits 2) (primes 8) in
    mkState (nth 0 h 0) (nth 1 h 0) (nth 2 h 0) (nth 3 h 0)
            (nth 4 h 0) (nth 5 h 0) (nth 6 h 0) (nth 7 h 0).

(** Padding: a one bit, zeros up to 56 mod 64, the bit length on 64 bits. *)
Definition bigEndian (n : nat) (x : Z) : list Z :=
  map (fun i => Z.land (Z.shiftr x (8 * Z.of_nat i)) 255) (rev (seq 0 n)).

Definition pad (msg : list Z) : list Z :=
  let len := Z.of_nat (length msg) in
  msg ++ [128] ++ repeat 0 (Z.to_nat ((55 - len) mod 64)) ++ bigEndian 8 (8 * len).

(** Big-endian 32-bit words of a byte sequence. *)
Fixpoint toWords (bs : list Z) : list Z :=
  match bs with
  | b0 :: b1 :: b2 :: b3 :: rest =>
      Z.lor (Z.lor (Z.lor (Z.shiftl b0 24) (Z.shiftl b1 16)) (Z.shiftl b2 8)) b3
        :: toWords rest
  | _ => []
  end.

(** The message schedule: sixteen block words extended to sixty-four. *)
Fixpoint extend (n : nat) (w : list Z) : list Z :=
  match n with
  | O => w
  | S n' =>
      let t := length w in
      let x := add32 (add32 (smallSigma1 (nth (t - 2) w 0)) (nth (t - 7) w 0))
                     (add32 (smallSigma0 (nth (t - 15) w 0)) (nth (t - 16) w 0)) in
      extend n' (w ++ [x])
  end.

Definition round (s : state) (kw : Z * Z) : state :=
  let t1 := add32 (add32 (add32 (sh s) (bigSigma1 (se s)))
                         (add32 (Ch (se s) (sf s) (sg s)) (fst kw))) (snd kw) in
  let t2 := add32 (bigSigma0 (sa s)) (Maj (sa s) (sb s) (sc s)) in
  mkState (add32 t1 t2) (sa s) (sb s) (sc s) (add32 (sd s) t1) (se s) (sf s) (sg s).

Definition compress (h : state) (block : list Z) : state :=
  let w := extend 48 block in
  let s := fold_left round (combine K w) h in
  mkState (add32 (sa h) (sa s)) (add32 (sb h) (sb s)) (add32 (sc h) (sc s))
          (add32 (sd h) (sd s)) (add32 (se h) (se s)) (add32 (sf h) (sf s))
          (add32 (sg h) (sg s)) (add32 (sh h) (sh s)).

(** The blocks of sixteen words, in order. *)
Fixpoint blocks (n : nat) (ws : list Z) : list (list Z) :=
  match n with
  | O => []
  | S n' => firstn 16 ws :: blocks n' (skipn 16 ws)
  end.

Definition digest (msg : list Z) : state :=
  let ws := toWords (pad msg) in
  fold_left compress (blocks (length ws / 16) ws) initial.

(** Lower-case hexadecimal. *)
Definition hexDigit (n : Z) : char :=
  if n <? 10 then Z.to_N (48 + n) else Z.to_N (87 + n).

Definition hexWord (w : Z) : jsstring :=
  map (fun i => hexDigit (Z.land (Z.shiftr w (4 * Z.of_nat i)) 15)) (rev (seq 0 8)).

Definition hex (s : state) : jsstring :=
  hexWord (sa s) ++ hexWord (sb s) ++ hexWord (sc s) ++ hexWord (sd s)
  ++ hexWord (se s) ++ hexWord (sf s) ++ hexWord (sg s) ++ hexWord (sh s).

Definition sha256Hex (text : jsstring) : jsstring := hex (digest (utf8Encode text)).

Definition isHexDigit (c : char) : bool :=
  (((48 <=? c) && (c <=? 57)) || ((97 <=? c) && (c <=? 102)))%N.

End Sha256.

(* ------------------------------------------------------------------------- *)
(** ** The ingestion script                                                  *)
(* ------------------------------------------------------------------------- *)

Module Ingest.

Import JS.

(** Why an awaited call rejected, or a statement threw. *)
Inductive error : Type :=
| NetworkError
| TitleNotFound (titleNumber : nat)
| XmlParseError
| ConnectionError
| StoreError.

Inductive result (A : Type) : Type :=
| Ok (a : A)
| Rejected (e : error).
Arguments Ok {A} a.
Arguments Rejected {A} e.

(** The publisher's index, titles.json. A date is a day number; the date
    strings of the index are taken to be well formed, so that [new Date]
    of one is a valid date. *)
Record TitleMeta : Type := mkTitleMeta {
  number : nat;
  up_to_date_as_of : Z
}.

Record TitlesJson : Type := mkTitlesJson {
  titles : list TitleMeta;
  import_in_progress : bool
}.

(** What xml2js hands back, as far as fetchTitle reads it: [$.label] and
    [paragraph] of a section ([paragraph] is [None] unless it is an array,
    and holds the [_] of each entry), [$.title] and [section] of the root. *)
Record SectionNode : Type := mkSection {
  label : option jsstring;
  paragraph : option (list (option jsstring))
}.

Record RegulationNode : Type := mkRegulation {
  titleAttr : option jsstring;
  section : option (list SectionNode)
}.

Record Parsed : Type := mkParsed {
  regulation : option RegulationNode
}.

(** The services the script talks to during one run: the publisher
    (titles.json, the document of a title at a date), xml2js, and MongoDB
    (connect, insert, disconnect). The request to titles.json made for a
    title, the document request and the insert are indexed by the title
    they are made for; an insert is rejected when the store is unreachable or
    the document fails validation. *)
Record World : Type := mkWorld {
  listing : result TitlesJson;
  versioner : nat -> result TitlesJson;
  fullXml : Z -> nat -> result jsstring;
  parseStringPromise : jsstring -> result Parsed;
  connect : result unit;
  storeAccepts : nat -> bool;
  disconnect : result unit
}.

(** The stored document (regulationSchema) and the collection. *)
Record Snapshot : Type := mkSnapshot {
  agency : jsstring;
  title : jsstring;
  versionDate : Z;
  wordCount : nat;
  checksum : jsstring;
  refDensity : float;
  defFreq : float
}.

Record Doc : Type := mkDoc {
  _id : nat;
  fields : Snapshot
}.

Definition collection := list Doc.

(** Console output. *)
Inductive event : Type :=
| WarnImportInProgress
| ErrorFetchingTitle (titleNumber : nat) (e : error)
| Ingested (titleNumber : nat)
| Done
| IngestionFailed (e : error).

Definition computeChecksum (text : jsstring) : jsstring := Sha256.sha256Hex text.

Definition getLatestVersionDate (w : World) (titleNumber : nat)
  : result Z * list event :=
  match versioner w titleNumber with
  | Rejected e => (Rejected e, [])
  | Ok data =>
      match find (fun t => Nat.eqb (number t) titleNumber) (titles data) with
      | None => (Rejected (TitleNotFound titleNumber), [])
      | Some meta =>
          (Ok (up_to_date_as_of meta),
           if import_in_progress data then [WarnImportInProgress] else [])
      end
  end.

Record Info : Type := mkInfo {
  infoAgency : jsstring;
  infoTitle : jsstring;
  infoVersionDate : Z;
  content : jsstring
}.

Definition titleLabel (titleNumber : nat) : jsstring :=
  ofAscii "Title " ++ decimal titleNumber.

Definition sectionText (sec : SectionNode) : jsstring :=
  let lbl := orElse (label sec) [] in
  let para :=
    match paragraph sec with
    | Some ps => join [lineFeed] (map (fun p => orElse p []) ps)
    | None => []
    end in
  trim (lbl ++ [space] ++ para).

Definition sectionsOf (result : Parsed) : list SectionNode :=
  match regulation result with
  | Some reg =>
      match section reg with
      | Some secs => secs
      | None => []
      end
  | None => []
  end.

Definition extractContent (xml : jsstring) (result : Parsed) : jsstring :=
  let sections := map sectionText (sectionsOf result) in
  match sections with
  | [] => xml
  | _ => join [lineFeed; lineFeed] sections
  end.

Definition titleOf (result : Parsed) (titleNumber : nat) : jsstring :=
  orElse match regulation result with
         | Some reg => titleAttr reg
         | None => None
         end (titleLabel titleNumber).

(** [fetchTitle]: every rejection inside the [try] is logged and turned
    into [null]. *)
Definition fetchTitle (w : World) (titleNumber : nat) : option Info * list event :=
  let failed e log := (None, log ++ [ErrorFetchingTitle titleNumber e]) in
  match getLatestVersionDate w titleNumber with
  | (Rejected e, log) => failed e log
  | (Ok versionDate, log) =>
      match fullXml w versionDate titleNumber with
      | Rejected e => failed e log
      | Ok xml =>
          match parseStringPromise w xml with
          | Rejected e => failed e log
          | Ok result =>
              (Some (mkInfo (titleLabel titleNumber) (titleOf result titleNumber)
                            versionDate (extractContent xml result)),
               log)
          end
      end
  end.

Definition refRegex : regex :=
  Seq (Cls (isChar sectionMark))
      (Seq (Star (Cls isWhiteSpace))
           (Seq (Plus (Cls isDigit))
                (Star (Seq (Cls (isChar fullStop)) (Plus (Cls isDigit)))))).

Definition defRegex : regex :=
  Seq (Cls (isChar leftQuote))
      (Seq (Plus (Cls (isNotChar rightQuote))) (Cls (isChar rightQuote))).

Definition wsRegex : regex := Plus (Cls isWhiteSpace).

Local Open Scope float_scope.

Definition computeRefDensity (content : jsstring) (wordCount : nat) : float :=
  let refs := countMatches refRegex content in
  (toNumber refs / toNumber wordCount) * 1000.

Definition computeDefFreq (content : jsstring) (wordCount : nat) : float :=
  let defs := countMatches defRegex content in
  toNumber defs / toNumber wordCount.

(** [content.trim().split(/\s+/).filter(Boolean).length] *)
Definition countWords (content : jsstring) : nat :=
  length (filter truthy (split wsRegex (trim content))).

(** The document ingestAll builds for one fetched title. *)
Definition snapshotOf (info : Info) : Snapshot :=
  let words := countWords (content info) in
  mkSnapshot (infoAgency info) (infoTitle info) (infoVersionDate info)
             words
             (computeChecksum (content info))
             (computeRefDensity (content info) words)
             (computeDefFreq (content info) words).

(** [Regulation.create]: one more document, under a fresh identifier. *)
Definition create (w : World) (titleNumber : nat) (db : collection) (doc : Snapshot)
  : result collection :=
  if storeAccepts w titleNumber
  then Ok (db ++ [mkDoc (length db) doc])
  else Rejected StoreError.

(** How a run ends: with the loop finished, or with the rejection that left
    [ingestAll]. Either way the collection and the console are as they were
    at that point. *)
Inductive outcome : Type :=
| Finished (db : collection) (log : list event)
| Aborted (e : error) (db : collection) (log : list event).

(** The [for (const t of TITLES)] loop. *)
Fixpoint ingestLoop (w : World) (TITLES : list nat) (db : collection)
                    (log : list event) : outcome :=
  match TITLES with
  | [] => Finished db log
  | t :: rest =>
      match fetchTitle w t with
      | (None, out) => ingestLoop w rest db (log ++ out)
      | (Some info, out) =>
          match create w t db (snapshotOf info) with
          | Rejected e => Aborted e db (log ++ out)
          | Ok db' => ingestLoop w rest db' (log ++ out ++ [Ingested t])
          end
      end
  end.

Definition ingestAll (w : World) (db : collection) : outcome :=
  match listing w with
  | Rejected e => Aborted e db []
  | Ok titlesResp =>
      let TITLES := map number (titles titlesResp) in
      match connect w with
      | Rejected e => Aborted e db []
      | Ok _ =>
          match ingestLoop w TITLES db [] with
          | Finished db' log =>
              match disconnect w with
              | Rejected e => Aborted e db' log
              | Ok _ => Finished db' (log ++ [Done])
              end
          | Aborted e db' log => Aborted e db' log
          end
      end
  end.

(** Running the file: a rejection of [ingestAll] is logged. *)
Definition main (w : World) (db : collection) : collection * list event :=
  match ingestAll w db with
  | Finished db' log => (db', log)
  | Aborted e db' log => (db', log ++ [IngestionFailed e])
  end.

End Ingest.

(* ------------------------------------------------------------------------- *)
(** ** The read endpoints of backend/index.js                                *)
(* ------------------------------------------------------------------------- *)

Module Api.

Import JS.
Import Ingest.

Inductive body : Type :=
| AgencyList (names : list jsstring)
| Metrics (wordCount : nat) (checksum : jsstring) (refDensity defFreq : float)
| ErrorMessage (msg : jsstring).

Record response : Type := mkResponse {
  status : nat;
  payload : body
}.

Definition json (b : body) : response := mkResponse 200 b.

(** What a handler's [try] block can throw. *)
Inductive thrown (A : Type) : Type :=
| Returned (a : A)
| TypeError (msg : jsstring).
Arguments Returned {A} a.
Arguments TypeError {A} msg.


Definition eqString (a b : jsstring) : bool :=
  if list_eq_dec N.eq_dec a b then true else false.




(** [Array.prototype.sort] with a comparator that may throw: a stable
    insertion sort; an array of fewer than two elements is returned without
    a call of the comparator, and a throw leaves the sort at once. *)
Fixpoint insertSorted {A : Type} (cmp : A -> A -> thrown Z) (x : A) (l : list A)
  : thrown (list A) :=
  match l with
  | [] => Returned [x]
  | y :: l' =>
      match cmp x y with
      | TypeError m => TypeError m
      | Returned v =>
          if (v <=? 0)%Z then Returned (x :: l)
          else match insertSorted cmp x l' with
               | TypeError m => TypeError m
               | Returned r => Returned (y :: r)
               end
      end
  end.

Fixpoint sort {A : Type} (cmp : A -> A -> thrown Z) (l : list A) : thrown (list A) :=
  match l with
  | [] => Returned []
  | x :: l' =>
      match sort cmp l' with
      | TypeError m => TypeError m
      | Returned s => insertSorted cmp x s
      end
  end.


(** [.find({ agency }).sort({ versionDate: -1 }).limit(1)]: the documents of
    the agency, latest version date first; documents of one date keep their
    insertion order. *)
Definition byDateDescending (a b : Doc) : thrown Z :=
  Returned (versionDate (fields b) - versionDate (fields a))%Z.

Definition findLatest (db : collection) (name : jsstring) : option Doc :=
  match sort byDateDescending
             (filter (fun d => eqString (agency (fields d)) name) db) with
  | Returned (doc :: _) => Some doc
  | _ => None
  end.

Definition notFoundMessage : jsstring := ofAscii "Agency not found".

(** GET /api/agencies/:agency/metrics *)
Definition metricsHandler (db : collection) (name : jsstring) : response :=
  match findLatest db name with
  | None => mkResponse 404 (ErrorMessage notFoundMessage)
  | Some doc =>
      let s := fields doc in
      json (Metrics (wordCount s) (checksum s) (refDensity s) (defFreq s))
  end.

End Api.

(* ------------------------------------------------------------------------- *)
(** ** What the metrics are said to count                                    *)
(* ------------------------------------------------------------------------- *)

Module Spec.

Import JS.

Definition AllWhiteSpace (s : jsstring) : Prop :=
  Forall (fun c => isWhiteSpace c = true) s.

(** A token: a non-empty run of characters none of which is white space. *)
Definition IsToken (w : jsstring) : Prop :=
  w <> [] /\ Forall (fun c => isWhiteSpace c = false) w.

(** The text after a maximal token: nothing, or something that starts with
    white space. *)
Definition Delimited (rest : jsstring) : Prop :=
  match rest with
  | [] => True
  | c :: _ => isWhiteSpace c = true
  end.

(** [Tokenization s toks]: [s] is white space, the first token, white
    space, the second token, and so on; every token is maximal. *)
Inductive Tokenization : jsstring -> list jsstring -> Prop :=
| tokens_none : forall sep,
    AllWhiteSpace sep -> Tokenization sep []
| tokens_next : forall sep w rest toks,
    AllWhiteSpace sep -> IsToken w -> Delimited rest ->
    Tokenization rest toks ->
    Tokenization (sep ++ w ++ rest) (w :: toks).

(** The tokens of [s] by a left-to-right scan; [cur] is the token being
    read, reversed. *)
Fixpoint tokensFrom (cur : jsstring) (s : jsstring) : list jsstring :=
  match s with
  | [] => match cur with
          | [] => []
          | _ => [rev cur]
          end
  | c :: s' =>
      if isWhiteSpace c then
        match cur with
        | [] => tokensFrom [] s'
        | _ => rev cur :: tokensFrom [] s'
        end
      else tokensFrom (c :: cur) s'
  end.

(** A citation: the section mark, optional white space, a digit group, and
    any number of further digit groups each led by a full stop. *)
Definition DigitGroup (g : jsstring) : Prop :=
  g <> [] /\ Forall (fun c => isDigit c = true) g.

Inductive IsReference : jsstring -> Prop :=
| reference : forall sp g gs,
    AllWhiteSpace sp -> DigitGroup g -> Forall DigitGroup gs ->
    IsReference (sectionMark :: sp ++ g ++ flat_map (fun g' => fullStop :: g') gs).

(** Does a citation start at the front of [s]? *)
Definition startsReference (s : jsstring) : bool :=
  match s with
  | c :: t =>
      isChar sectionMark c &&
      match dropWhile isWhiteSpace t with
      | d :: _ => isDigit d
      | [] => false
      end
  | [] => false
  end.

(** The number of positions of [s] at which a citation starts. *)
Fixpoint referenceCount (s : jsstring) : nat :=
  match s with
  | [] => 0
  | _ :: t => (if startsReference s then 1 else 0) + referenceCount t
  end.

(** The characters a match of [r] can contain. *)
Fixpoint alphabet (r : regex) (c : char) : bool :=
  match r with
  | Cls p => p c
  | Seq r1 r2 => alphabet r1 c || alphabet r2 c
  | Star r1 => alphabet r1 c
  end.

(** The citation expression without its leading section mark. *)
Definition afterMark : regex :=
  Seq (Star (Cls isWhiteSpace))
      (Seq (Plus (Cls isDigit))
           (Star (Seq (Cls (isChar fullStop)) (Plus (Cls isDigit))))).

(** A quoted span: the opening quote, one or more characters other than the
    closing quote, the closing quote. *)
Inductive IsQuoted : jsstring -> Prop :=
| quoted : forall body,
    body <> [] -> Forall (fun c => c <> rightQuote) body ->
    IsQuoted (leftQuote :: body ++ [rightQuote]).

(** A quoted span starts at the front of [s]. *)
Definition QuotedAt (s : jsstring) : Prop :=
  exists q rest, IsQuoted q /\ s = q ++ rest.

(** [QuotedSpans s n]: reading [s] from the left and taking, each time, the
    first quoted span that starts at or after the end of the previous one
    yields [n] spans. *)
Inductive QuotedSpans : jsstring -> nat -> Prop :=
| spans_none : forall s,
    (forall pre post, s = pre ++ post -> ~ QuotedAt post) ->
    QuotedSpans s 0
| spans_next : forall pre q post n,
    IsQuoted q ->
    (forall a b, pre = a ++ b -> b <> [] -> ~ QuotedAt (b ++ q ++ post)) ->
    QuotedSpans post n ->
    QuotedSpans (pre ++ q ++ post) (S n).

Import Ingest.


(** The titles a run iterates over. *)
Definition titlesOf (w : World) : list nat :=
  match listing w with
  | Ok titlesResp => map number (titles titlesResp)
  | Rejected _ => []
  end.

(** What one title contributes to a run in which the store accepts every
    insert: its snapshot if the fetch succeeded, and its console lines. *)
Definition observation (w : World) (t : nat) : list Snapshot :=
  match fst (fetchTitle w t) with
  | Some info => [snapshotOf info]
  | None => []
  end.

Definition unitLog (w : World) (t : nat) : list event :=
  snd (fetchTitle w t)
  ++ match fst (fetchTitle w t) with
     | Some _ => [Ingested t]
     | None => []
     end.


(** The fetch of a title got a document that parsed and held no section. *)
Definition fallbackTaken (w : World) (t : nat) : bool :=
  match getLatestVersionDate w t with
  | (Ok versionDate, _) =>
      match fullXml w versionDate t with
      | Ok xml =>
          match parseStringPromise w xml with
          | Ok result =>
              match map sectionText (sectionsOf result) with
              | [] => true
              | _ => false
              end
          | Rejected _ => false
          end
      | Rejected _ => false
      end
  | (Rejected _, _) => false
  end.

Import Api.

(** Ascending order of a key. *)
Definition ascendingBy (A : Type) (key : A -> Z) (a b : A) : Prop :=
  (key a <= key b)%Z.





(** The documents of an agency, oldest write first, and the one written
    last. *)
Definition snapshotsOf (db : collection) (name : jsstring) : list Doc :=
  filter (fun d => eqString (agency (fields d)) name) db.

Definition lastWritten (db : collection) (name : jsstring) : option Doc :=
  match rev (snapshotsOf db name) with
  | d :: _ => Some d
  | [] => None
  end.

(** The four fields the metrics endpoint answers with. *)
Definition metricsOf (d : Doc) : body :=
  Metrics (wordCount (fields d)) (checksum (fields d))
          (refDensity (fields d)) (defFreq (fields d)).

End Spec.

(* ------------------------------------------------------------------------- *)
(** ** Concrete inputs                                                       *)
(* ------------------------------------------------------------------------- *)

Module Examples.

Import JS Ingest.

(** The section text of the first end-to-end scenario. *)
Definition scenario1 : jsstring :=
  [sectionMark] ++ ofAscii " 1.1 This section defines " ++ [leftQuote]
    ++ ofAscii "widget" ++ [rightQuote] ++ ofAscii " as any device.".

Definition scenario1Info : Info :=
  mkInfo (titleLabel 1) (titleLabel 1) 19723 scenario1.

(** A title whose text is empty. *)
Definition emptyInfo : Info :=
  mkInfo (titleLabel 35) (titleLabel 35) 19723 [].

(** A quotation inside a quotation. *)
Definition nestedQuotes : jsstring :=
  ofAscii "the " ++ [leftQuote] ++ ofAscii "outer " ++ [leftQuote]
    ++ ofAscii "inner" ++ [rightQuote] ++ ofAscii " term" ++ [rightQuote]
    ++ ofAscii " applies".

Definition nestedInfo : Info :=
  mkInfo (titleLabel 2) (titleLabel 2) 19723 nestedQuotes.

(** The same text twice, captured on different days. *)
Definition scenario1Later : Info :=
  mkInfo (titleLabel 1) (titleLabel 1) 19800 scenario1.

Definition catalog123 : TitlesJson :=
  mkTitlesJson [mkTitleMeta 1 19723; mkTitleMeta 2 19723; mkTitleMeta 3 19723]
               false.

Definition plainDocument : jsstring :=
  ofAscii "<regulation><section label='1.1'><paragraph>x</paragraph></section></regulation>".

Definition plainParsed : Parsed :=
  mkParsed (Some (mkRegulation None
    (Some [mkSection (Some (ofAscii "1.1")) (Some [Some (ofAscii "Scope.")])]))).

(** Three titles, each served and parsed; the insert for title 2 is
    rejected. *)
Definition storeDownAtTitle2 : World :=
  mkWorld (Ok catalog123) (fun _ => Ok catalog123)
          (fun _ _ => Ok plainDocument) (fun _ => Ok plainParsed)
          (Ok tt) (fun t => negb (Nat.eqb t 2)) (Ok tt).

(** Three titles; the document request for title 2 fails. *)
Definition fetchFailsAtTitle2 : World :=
  mkWorld (Ok catalog123) (fun _ => Ok catalog123)
          (fun _ t => if Nat.eqb t 2 then Rejected NetworkError else Ok plainDocument)
          (fun _ => Ok plainParsed)
          (Ok tt) (fun _ => true) (Ok tt).

(** A document without section nodes, and a document whose single section
    is labelled with the text of the first one. *)
Definition noSections : jsstring := ofAscii "<notes>see 12.5</notes>".

Definition labelledLikeNoSections : jsstring :=
  ofAscii "<regulation><section label='&lt;notes&gt;see 12.5&lt;/notes&gt;'><paragraph/></section></regulation>".

Definition servesNoSections : World :=
  mkWorld (Ok catalog123) (fun _ => Ok catalog123)
          (fun _ _ => Ok noSections)
          (fun _ => Ok (mkParsed None))
          (Ok tt) (fun _ => true) (Ok tt).

Definition servesLabelled : World :=
  mkWorld (Ok catalog123) (fun _ => Ok catalog123)
          (fun _ _ => Ok labelledLikeNoSections)
          (fun _ => Ok (mkParsed (Some (mkRegulation None
             (Some [mkSection (Some noSections) (Some [None])])))))
          (Ok tt) (fun _ => true) (Ok tt).

(** Title 1 captured twice; the capture written second carries the earlier
    version date. *)
Definition outOfOrder : collection :=
  [mkDoc 0 (snapshotOf scenario1Later);
   mkDoc 1 (snapshotOf (mkInfo (titleLabel 1) (titleLabel 1) 19723 nestedQuotes))].





End Examples.

(* ------------------------------------------------------------------------- *)
(** ** The other endpoints of backend/index.js                               *)
(* ------------------------------------------------------------------------- *)

Module Endpoints.

Import JS Ingest Api.

(** Why a handler answered with status 500. *)
Inductive failure : Type :=
| Thrown (msg : jsstring)
| RejectedWith (e : error).

(** The answer of a handler: a JSON body with status 200, or status 500. *)
Inductive reply (A : Type) : Type :=
| Json200 (a : A)
| Status500 (cause : failure).
Arguments Json200 {A} a.
Arguments Status500 {A} cause.

(** One entry of the history: [select('versionDate wordCount -_id')]. *)
Record HistoryPoint : Type := mkHistoryPoint {
  pointDate : Z;
  pointWordCount : nat
}.

Definition toPoint (d : Doc) : HistoryPoint :=
  mkHistoryPoint (versionDate (fields d)) (wordCount (fields d)).

(** [sort({ versionDate: 1 })] *)
Definition byDateAscending (a b : Doc) : thrown Z :=
  Returned (versionDate (fields a) - versionDate (fields b))%Z.

(** GET /api/agencies/:agency/history *)
Definition historyHandler (db : collection) (name : jsstring)
  : reply (list HistoryPoint) :=
  match sort byDateAscending
             (filter (fun d => eqString (agency (fields d)) name) db) with
  | Returned history => Json200 (map toPoint history)
  | TypeError msg => Status500 (Thrown msg)
  end.

(** An entry of titles.json as the endpoint reads it, and what it keeps. *)
Record TitleRow : Type := mkTitleRow {
  rowNumber : Z;
  rowName : jsstring;
  rowUpToDateAsOf : Z
}.

Record TitleSummary : Type := mkTitleSummary {
  summaryNumber : Z;
  summaryName : jsstring
}.

Definition summarize (t : TitleRow) : TitleSummary :=
  mkTitleSummary (rowNumber t) (rowName t).

Definition byNumber (a b : TitleSummary) : thrown Z :=
  Returned (summaryNumber a - summaryNumber b)%Z.

(** GET /api/titles, given how the request to the publisher ended. *)
Definition titlesHandler (response : result (list TitleRow))
  : reply (list TitleSummary) :=
  match response with
  | Rejected e => Status500 (RejectedWith e)
  | Ok rows =>
      match sort byNumber (map summarize rows) with
      | Returned titles => Json200 titles
      | TypeError msg => Status500 (Thrown msg)
      end
  end.

End Endpoints.

(* ------------------------------------------------------------------------- *)
(** ** The dashboard page: search and pagination                             *)
(* ------------------------------------------------------------------------- *)

Module Dashboard.

Import JS.

Local Open Scope Z_scope.

Definition pageSize : Z := 10.

(** [l.slice(start, stop)]: a negative index counts from the end, both are
    clamped to the array, and a stop before the start gives nothing. *)
Definition slice (A : Type) (l : list A) (start stop : Z) : list A :=
  let len := Z.of_nat (length l) in
  let k := if start <? 0 then Z.max (len + start) 0 else Z.min start len in
  let final := if stop <? 0 then Z.max (len + stop) 0 else Z.min stop len in
  firstn (Z.to_nat (Z.max (final - k) 0)) (skipn (Z.to_nat k) l).

(** [Math.ceil(count / pageSize)] (exact for the length of an array). *)
Definition pagesFor (count : nat) : Z :=
  (Z.of_nat count + pageSize - 1) / pageSize.

(** [s.includes(t)] *)
Fixpoint startsWith (t s : jsstring) : bool :=
  match t, s with
  | [], _ => true
  | a :: t', b :: s' => (a =? b)%N && startsWith t' s'
  | _ :: _, [] => false
  end.

Fixpoint includes (s t : jsstring) : bool :=
  startsWith t s ||
  match s with
  | [] => false
  | _ :: s' => includes s' t
  end.

(** What the page shows and what a click does, [page] and [searchTerm]
    being its state. The case mapping of strings is the language's. *)
Record view : Type := mkView {
  page : Z;
  searchTerm : jsstring
}.

Inductive click : Type :=
| Previous
| Next
| Search (term : jsstring).

Definition initialView : view := mkView 1 [].

Section Page.

Variable toLowerCase : jsstring -> jsstring.

Definition filteredAgencies (agencies : list jsstring) (term : jsstring)
  : list jsstring :=
  filter (fun a => includes (toLowerCase a) (toLowerCase term)) agencies.

Definition totalPages (agencies : list jsstring) (term : jsstring) : Z :=
  pagesFor (length (filteredAgencies agencies term)).

Definition paged (agencies : list jsstring) (v : view) : list jsstring :=
  slice (filteredAgencies agencies (searchTerm v))
        ((page v - 1) * pageSize) (page v * pageSize).

(** A disabled button does nothing; typing in the search box goes back to
    the first page. *)
Definition handle (agencies : list jsstring) (v : view) (c : click) : view :=
  match c with
  | Previous =>
      if page v <=? 1 then v else mkView (page v - 1) (searchTerm v)
  | Next =>
      if totalPages agencies (searchTerm v) <=? page v then v
      else mkView (page v + 1) (searchTerm v)
  | Search term => mkView 1 term
  end.

End Page.


End Dashboard.

(* ------------------------------------------------------------------------- *)
(** ** Notions used to state further properties                              *)
(* ------------------------------------------------------------------------- *)

Module Laws.

Import JS Ingest Api Spec.





(** A text with no white space at either end. *)
Definition Trimmed (s : jsstring) : Prop :=
  (forall c t, s = c :: t -> isWhiteSpace c = false)
  /\ (forall c t, s = t ++ [c] -> isWhiteSpace c = false).

(** The paragraphs of a section, one per line. *)
Definition paragraphsText (sec : SectionNode) : jsstring :=
  match paragraph sec with
  | Some ps => join [lineFeed] (map (fun p => orElse p []) ps)
  | None => []
  end.

(** Occurrences of a character in a text. *)
Definition occurrences (c : char) (s : jsstring) : nat :=
  count_occ N.eq_dec s c.

End Laws.

(* ------------------------------------------------------------------------- *)
(** ** Facts about the matcher                                               *)
(* ------------------------------------------------------------------------- *)

Import JS.

Section Matcher.

Variable p : char -> bool.

(** One step of a greedy character-class star: take the character and go
    on, and give it back if the rest cannot be matched. *)
Lemma rmatch_star_cls_cons (k : jsstring -> option jsstring) c t :
  rmatch (Star (Cls p)) (c :: t) k =
  if p c then
    match rmatch (Star (Cls p)) t k with
    | Some e => Some e
    | None => k (c :: t)
    end
  else k (c :: t).
Proof.
  simpl. destruct (p c); [|reflexivity].
  assert (H : (length t <? S (length t))%nat = true) by (apply Nat.ltb_lt; lia).
  rewrite H. reflexivity.
Qed.

(** When the continuation has no use for a character of the class, the star
    takes the whole run. *)
Lemma rmatch_star_cls_commit (k : jsstring -> option jsstring) :
  (forall c t, p c = true -> k (c :: t) = None) ->
  forall s, rmatch (Star (Cls p)) s k = k (dropWhile p s).
Proof.
  intros Hk s. induction s as [|c t IH].
  - reflexivity.
  - rewrite rmatch_star_cls_cons. simpl dropWhile.
    destruct (p c) eqn:Hc; [|reflexivity].
    rewrite IH. destruct (k (dropWhile p t)); [reflexivity|].
    apply Hk, Hc.
Qed.

Lemma rmatch_star_cls_all s :
  rmatch (Star (Cls p)) s Some = Some (dropWhile p s).
Proof.
  induction s as [|c t IH].
  - reflexivity.
  - rewrite rmatch_star_cls_cons, IH. simpl. destruct (p c); reflexivity.
Qed.

Lemma dropWhile_split s :
  exists pre, Forall (fun c => p c = true) pre /\ s = pre ++ dropWhile p s.
Proof.
  induction s as [|c t [pre [Hpre Ht]]]; simpl.
  - exists []. split; [constructor|reflexivity].
  - destruct (p c) eqn:Hc.
    + exists (c :: pre). split; [constructor; assumption|].
      simpl. f_equal. exact Ht.
    + exists []. split; [constructor|reflexivity].
Qed.

Lemma dropWhile_app_stop pre c t :
  Forall (fun c => p c = true) pre -> p c = false ->
  dropWhile p (pre ++ c :: t) = c :: t.
Proof.
  induction 1 as [|d pre Hd _ IH]; intros Hc; simpl.
  - rewrite Hc. reflexivity.
  - rewrite Hd. apply IH, Hc.
Qed.

End Matcher.

Lemma rmatch_seq r1 r2 s (k : jsstring -> option jsstring) :
  rmatch (Seq r1 r2) s k = rmatch r1 s (fun s1 => rmatch r2 s1 k).
Proof. reflexivity. Qed.

Lemma rmatch_cls p c t (k : jsstring -> option jsstring) :
  rmatch (Cls p) (c :: t) k = if p c then k t else None.
Proof. reflexivity. Qed.

(** A star whose continuation always answers always answers. *)
Lemma rmatch_star_total r (k : jsstring -> option jsstring) s :
  (forall s', k s' <> None) -> rmatch (Star r) s k <> None.
Proof.
  intros Hk. simpl. destruct (length s) as [|n].
  - apply Hk.
  - match goal with |- match ?m with _ => _ end <> None => destruct m end.
    + discriminate.
    + apply Hk.
Qed.

(** The matcher on small inputs, against what the language gives:
    ["aab".match(/a*/g)] has three entries, the last two empty;
    [/a*a/] gives back one character to match; [" a  b ".split(/\s+/)]
    keeps the empty ends, [trim] removes them; ["ab c".split(/\s*/)] cuts
    between all characters. *)
Lemma matcher_examples :
  countMatches (Star (Cls (isChar 97%N))) (ofAscii "aab") = 3%nat
  /\ matchAt (Seq (Star (Cls (isChar 97%N))) (Cls (isChar 97%N))) (ofAscii "aaab")
     = Some (ofAscii "b")
  /\ split (Plus (Cls isWhiteSpace)) (ofAscii " a  b ")
     = [[]; ofAscii "a"; ofAscii "b"; []]
  /\ split (Plus (Cls isWhiteSpace)) (trim (ofAscii " a  b "))
     = [ofAscii "a"; ofAscii "b"]
  /\ split (Plus (Cls isWhiteSpace)) [] = [[]]
  /\ split (Star (Cls isWhiteSpace)) (ofAscii "ab c")
     = [ofAscii "a"; ofAscii "b"; ofAscii "c"]
  /\ firstMatch (Plus (Cls isDigit)) (ofAscii "Title 40, part 3")
     = Some (ofAscii "40")
  /\ parseInt10 (ofAscii "040") = 40%Z
  /\ decimal 40 = ofAscii "40".
Proof. repeat split; vm_compute; reflexivity. Qed.

Lemma consumed_app (w rest : jsstring) : consumed (w ++ rest) rest = length w.
Proof. unfold consumed. rewrite length_app. lia. Qed.

(** Positions covered by a match are passed over. *)
Lemma countMatchesFrom_skip r (a b : jsstring) :
  countMatchesFrom r (a ++ b) (length a) = countMatchesFrom r b 0.
Proof.
  induction a as [|c a IH]; simpl.
  - reflexivity.
  - exact IH.
Qed.

(* ------------------------------------------------------------------------- *)
(** ** Word count                                                            *)
(* ------------------------------------------------------------------------- *)

Import Spec Ingest Examples.

Lemma matchAt_wsRegex s :
  matchAt wsRegex s =
  match s with
  | c :: t => if isWhiteSpace c then Some (dropWhile isWhiteSpace t) else None
  | [] => None
  end.
Proof.
  destruct s as [|c t]; [reflexivity|].
  unfold matchAt, wsRegex, Plus.
  change (rmatch (Seq (Cls isWhiteSpace) (Star (Cls isWhiteSpace))) (c :: t) Some)
    with (if isWhiteSpace c then rmatch (Star (Cls isWhiteSpace)) t Some else None).
  rewrite rmatch_star_cls_all. reflexivity.
Qed.

Lemma consumed_dropWhile p c t :
  exists n, consumed (c :: t) (dropWhile p t) = S n
            /\ Forall (fun c => p c = true) (firstn n t).
Proof.
  destruct (dropWhile_split p t) as [pre [Hpre Ht]].
  exists (length pre). split.
  - pose proof (f_equal (@length _) Ht) as Hl. rewrite length_app in Hl.
    unfold consumed. cbn [length]. lia.
  - replace (firstn (length pre) t) with pre; [exact Hpre|].
    rewrite Ht, firstn_app, firstn_all, Nat.sub_diag. simpl.
    rewrite app_nil_r. reflexivity.
Qed.

Lemma truthy_rev (cur : jsstring) : truthy (rev cur) = truthy cur.
Proof.
  destruct cur as [|c cur]; [reflexivity|]. simpl.
  destruct (rev cur); reflexivity.
Qed.

(** Dropping the empty pieces of the split leaves the scanned tokens. *)
Lemma splitLoop_tokens s : forall skip cur,
  Forall (fun c => isWhiteSpace c = true) (firstn skip s) ->
  (skip <> 0%nat -> cur = []) ->
  filter truthy (splitLoop wsRegex s skip cur) = tokensFrom cur s.
Proof.
  induction s as [|c t IH]; intros skip cur Hskip Hcur.
  - simpl. rewrite truthy_rev. destruct cur; reflexivity.
  - destruct skip as [|n].
    + simpl splitLoop. rewrite matchAt_wsRegex. simpl tokensFrom.
      destruct (isWhiteSpace c) eqn:Hc.
      * destruct (consumed_dropWhile isWhiteSpace c t) as [n [Hn Hall]].
        rewrite Hn. simpl filter. rewrite truthy_rev.
        rewrite IH by (assumption || reflexivity).
        destruct cur; reflexivity.
      * apply IH; [constructor|congruence].
    + simpl in Hskip. inversion Hskip as [|? ? Hc Hrest]; subst.
      rewrite (Hcur ltac:(discriminate)). simpl. rewrite Hc.
      apply IH; [assumption|reflexivity].
Qed.

Lemma split_tokens s : filter truthy (split wsRegex s) = tokensFrom [] s.
Proof.
  destruct s as [|c t]; [reflexivity|].
  unfold split. apply splitLoop_tokens; [constructor|reflexivity].
Qed.

Lemma tokensFrom_leading sep s :
  AllWhiteSpace sep -> tokensFrom [] (sep ++ s) = tokensFrom [] s.
Proof.
  induction 1 as [|c sep Hc _ IH]; simpl; [reflexivity|]. rewrite Hc. exact IH.
Qed.

Lemma tokensFrom_trailing suf : AllWhiteSpace suf ->
  forall s cur, tokensFrom cur (s ++ suf) = tokensFrom cur s.
Proof.
  intros Hsuf.
  assert (Hnil : tokensFrom [] suf = []).
  { rewrite <- (app_nil_r suf). rewrite tokensFrom_leading by assumption.
    reflexivity. }
  induction s as [|c s IH]; intros cur; simpl.
  - destruct Hsuf as [|d suf Hd Hsuf]; [reflexivity|].
    simpl in *. rewrite Hd in *. rewrite Hnil. destruct cur; reflexivity.
  - rewrite !IH. reflexivity.
Qed.

Lemma tokensFrom_token w : Forall (fun c => isWhiteSpace c = false) w ->
  forall cur s, tokensFrom cur (w ++ s) = tokensFrom (rev w ++ cur) s.
Proof.
  induction 1 as [|c w Hc _ IH]; intros cur s; simpl; [reflexivity|].
  rewrite Hc, IH, <- app_assoc. reflexivity.
Qed.

Lemma tokensFrom_delimited cur rest :
  cur <> [] -> Delimited rest ->
  tokensFrom cur rest = rev cur :: tokensFrom [] rest.
Proof.
  intros Hcur Hrest. destruct cur as [|d cur]; [congruence|].
  destruct rest as [|c r]; simpl in *.
  - reflexivity.
  - rewrite Hrest. reflexivity.
Qed.

Lemma dropWhile_leading s :
  tokensFrom [] (dropWhile isWhiteSpace s) = tokensFrom [] s.
Proof.
  destruct (dropWhile_split isWhiteSpace s) as [pre [Hpre Hs]].
  rewrite Hs at 2. symmetry. apply tokensFrom_leading, Hpre.
Qed.

Lemma tokensFrom_trim s : tokensFrom [] (trim s) = tokensFrom [] s.
Proof.
  unfold trim. set (d := dropWhile isWhiteSpace s).
  destruct (dropWhile_split isWhiteSpace (rev d)) as [pre [Hpre Hd]].
  assert (E : d = rev (dropWhile isWhiteSpace (rev d)) ++ rev pre).
  { rewrite <- rev_app_distr, <- Hd, rev_involutive. reflexivity. }
  transitivity (tokensFrom [] (rev (dropWhile isWhiteSpace (rev d)) ++ rev pre)).
  - symmetry. apply tokensFrom_trailing, Forall_rev, Hpre.
  - rewrite <- E. apply dropWhile_leading.
Qed.

Lemma countWords_tokens s : countWords s = length (tokensFrom [] s).
Proof. unfold countWords. rewrite split_tokens, tokensFrom_trim. reflexivity. Qed.

Lemma Tokenization_space c s toks :
  isWhiteSpace c = true -> Tokenization s toks -> Tokenization (c :: s) toks.
Proof.
  intros Hc H. destruct H as [sep Hsep|sep w rest toks Hsep Hw Hrest Htoks].
  - constructor. constructor; assumption.
  - change (c :: sep ++ w ++ rest) with ((c :: sep) ++ w ++ rest).
    constructor; try assumption. constructor; assumption.
Qed.

(** The scan yields a tokenization. *)
Lemma tokensFrom_sound s : forall cur,
  Forall (fun c => isWhiteSpace c = false) cur ->
  Tokenization (rev cur ++ s) (tokensFrom cur s).
Proof.
  induction s as [|c t IH]; intros cur Hcur.
  - destruct cur as [|d cur].
    + constructor. constructor.
    + apply (tokens_next (sep := []) (w := rev (d :: cur)) (rest := [])
                         (toks := [])).
      * constructor.
      * split; [|apply Forall_rev, Hcur].
        intro E. apply (f_equal (@length _)) in E.
        rewrite length_rev in E. discriminate.
      * exact I.
      * constructor. constructor.
  - simpl tokensFrom. destruct (isWhiteSpace c) eqn:Hc.
    + destruct cur as [|d cur].
      * simpl. apply Tokenization_space; [assumption|].
        apply (IH []). constructor.
      * apply (tokens_next (sep := []) (w := rev (d :: cur)) (rest := c :: t)).
        -- constructor.
        -- split; [|apply Forall_rev, Hcur].
           intro E. apply (f_equal (@length _)) in E.
           rewrite length_rev in E. discriminate.
        -- exact Hc.
        -- apply Tokenization_space; [assumption|].
           apply (IH []). constructor.
    + specialize (IH (c :: cur) ltac:(constructor; assumption)).
      simpl in IH. rewrite <- app_assoc in IH. exact IH.
Qed.

(** A text has one tokenization only. *)
Lemma Tokenization_unique s toks :
  Tokenization s toks -> toks = tokensFrom [] s.
Proof.
  induction 1 as [sep Hsep|sep w rest toks Hsep [Hne Hw] Hrest _ IH].
  - rewrite <- (app_nil_r sep), tokensFrom_leading by assumption. reflexivity.
  - rewrite tokensFrom_leading by assumption.
    rewrite tokensFrom_token by assumption. rewrite app_nil_r.
    rewrite tokensFrom_delimited.
    + rewrite rev_involutive. f_equal. exact IH.
    + intro E. apply Hne. apply (f_equal (@rev _)) in E.
      rewrite rev_involutive in E. exact E.
    + exact Hrest.
Qed.

Lemma countWords_examples :
  countWords scenario1 = 9%nat
  /\ countWords (ofAscii "  two   words ") = 2%nat
  /\ countWords [] = 0%nat
  /\ countWords [lineFeed; space; 9%N] = 0%nat.
Proof. repeat split; vm_compute; reflexivity. Qed.

(** C7. The word count of a text is the number of its maximal
    white-space-delimited non-empty tokens: every text has exactly one
    tokenization, and [countWords] is its length; it is 0 for the empty text
    and for a text of white space only. *)
Theorem countWords_counts_tokens (content : jsstring) :
  (exists toks,
      Tokenization content toks
      /\ (forall toks', Tokenization content toks' -> toks' = toks)
      /\ countWords content = length toks)
  /\ (AllWhiteSpace content -> countWords content = 0%nat).
Proof.
  split.
  - exists (tokensFrom [] content). split; [|split].
    + apply (tokensFrom_sound content (cur := [])). constructor.
    + apply Tokenization_unique.
    + apply countWords_tokens.
  - intros Hws. rewrite countWords_tokens.
    rewrite <- (app_nil_r content), tokensFrom_leading by assumption.
    reflexivity.
Qed.

(* ------------------------------------------------------------------------- *)
(** ** Reference density                                                     *)
(* ------------------------------------------------------------------------- *)

(** What a successful match consumed is made of characters of the
    expression, and the continuation accepted the rest. *)
Lemma rmatch_sound r : forall s k e,
  rmatch r s k = Some e ->
  exists w s1, s = w ++ s1
               /\ Forall (fun c => alphabet r c = true) w
               /\ k s1 = Some e.
Proof.
  induction r as [p|r1 IH1 r2 IH2|r1 IH1]; intros s k e H.
  - destruct s as [|c s']; [discriminate|]. simpl in H.
    destruct (p c) eqn:Hc; [|discriminate].
    exists [c], s'. repeat split; [|exact H].
    constructor; [exact Hc|constructor].
  - simpl in H. apply IH1 in H. destruct H as [w1 [s1 [Hs [Hw1 H]]]].
    apply IH2 in H. destruct H as [w2 [s2 [Hs1 [Hw2 H]]]].
    exists (w1 ++ w2), s2. subst. rewrite <- app_assoc. repeat split; [|exact H].
    apply Forall_app. split.
    + eapply Forall_impl; [|exact Hw1]. simpl. intros c Hc. rewrite Hc. reflexivity.
    + eapply Forall_impl; [|exact Hw2]. simpl. intros c Hc. rewrite Hc.
      apply orb_true_r.
  - simpl in H. remember (length s) as n eqn:Hn. clear Hn.
    revert s H. induction n as [|n IHn]; intros s H.
    + exists [], s. repeat split; [constructor|exact H].
    + match type of H with
      | match ?m with _ => _ end = _ => destruct m as [e'|] eqn:Hm
      end.
      * inversion H; subst e'. apply IH1 in Hm.
        destruct Hm as [w1 [s1 [Hs [Hw1 Hm]]]].
        destruct (length s1 <? length s)%nat; [|discriminate].
        apply IHn in Hm. destruct Hm as [w2 [s2 [Hs1 [Hw2 Hk]]]].
        exists (w1 ++ w2), s2. subst. rewrite <- app_assoc.
        repeat split; [|exact Hk].
        apply Forall_app. split; assumption.
      * exists [], s. repeat split; [constructor|exact H].
Qed.

Lemma digit_not_space c : isDigit c = true -> isWhiteSpace c = false.
Proof.
  unfold isDigit, isWhiteSpace. intros H.
  apply andb_true_iff in H. destruct H as [H1 H2].
  apply N.leb_le in H1. apply N.leb_le in H2.
  repeat match goal with
  | |- context [(?a <=? ?b)%N] => destruct (N.leb_spec a b)
  | |- context [(?a =? ?b)%N] => destruct (N.eqb_spec a b)
  end; simpl; try reflexivity; lia.
Qed.

Lemma matchAt_refRegex s :
  matchAt refRegex s =
  match s with
  | c :: t => if isChar sectionMark c then matchAt afterMark t else None
  | [] => None
  end.
Proof. destruct s; reflexivity. Qed.

Lemma afterMark_alphabet c :
  alphabet afterMark c = true -> c <> sectionMark.
Proof.
  unfold afterMark, isChar, isDigit, isWhiteSpace, fullStop, sectionMark.
  simpl. intros H E. subst c. vm_compute in H. discriminate.
Qed.

Lemma matchAt_afterMark t :
  matchAt afterMark t =
  match dropWhile isWhiteSpace t with
  | d :: t' => if isDigit d then matchAt afterMark (d :: t') else None
  | [] => None
  end.
Proof.
  unfold matchAt, afterMark at 1.
  change (rmatch (Seq (Star (Cls isWhiteSpace)) ?r) t Some)
    with (rmatch (Star (Cls isWhiteSpace)) t (fun s1 => rmatch r s1 Some)).
  rewrite rmatch_star_cls_commit.
  - destruct (dropWhile_split isWhiteSpace t) as [pre [Hpre Ht]].
    destruct (dropWhile isWhiteSpace t) as [|d t'] eqn:Hd; [reflexivity|].
    destruct (isDigit d) eqn:Hdig; [|simpl; rewrite Hdig; reflexivity].
    unfold afterMark.
    change (rmatch (Seq (Star (Cls isWhiteSpace)) ?r) (d :: t') Some)
      with (rmatch (Star (Cls isWhiteSpace)) (d :: t') (fun s1 => rmatch r s1 Some)).
    rewrite rmatch_star_cls_commit.
    + simpl dropWhile. rewrite (digit_not_space d Hdig). reflexivity.
    + intros c u Hc. simpl.
      destruct (isDigit c) eqn:Hdc; [|reflexivity].
      apply digit_not_space in Hdc. congruence.
  - intros c u Hc. simpl.
    destruct (isDigit c) eqn:Hdc; [|reflexivity].
    apply digit_not_space in Hdc. congruence.
Qed.

Lemma matchAt_afterMark_digit d t' :
  isDigit d = true -> matchAt afterMark (d :: t') <> None.
Proof.
  intros Hd. unfold matchAt, afterMark.
  change (rmatch (Seq (Star (Cls isWhiteSpace)) ?r) (d :: t') Some)
    with (rmatch (Star (Cls isWhiteSpace)) (d :: t') (fun s1 => rmatch r s1 Some)).
  rewrite rmatch_star_cls_commit.
  - simpl dropWhile. rewrite (digit_not_space d Hd).
    unfold Plus. rewrite !rmatch_seq, rmatch_cls, Hd.
    apply rmatch_star_total. intros s'.
    apply rmatch_star_total. discriminate.
  - intros c u Hc. simpl.
    destruct (isDigit c) eqn:Hdc; [|reflexivity].
    apply digit_not_space in Hdc. congruence.
Qed.

(** The expression matches exactly where a citation starts. *)
Lemma matchAt_refRegex_starts s :
  matchAt refRegex s <> None <-> startsReference s = true.
Proof.
  rewrite matchAt_refRegex. destruct s as [|c t]; simpl; [split; congruence|].
  destruct (isChar sectionMark c); simpl; [|split; congruence].
  rewrite matchAt_afterMark.
  destruct (dropWhile isWhiteSpace t) as [|d t']; [split; congruence|].
  destruct (isDigit d) eqn:Hd; [|split; congruence].
  split; [reflexivity|]. intros _. apply matchAt_afterMark_digit, Hd.
Qed.

(** A match is the section mark and characters other than the mark. *)
Lemma matchAt_refRegex_shape s rest :
  matchAt refRegex s = Some rest ->
  exists u, s = sectionMark :: u ++ rest /\ Forall (fun c => c <> sectionMark) u.
Proof.
  rewrite matchAt_refRegex. destruct s as [|c t]; [discriminate|].
  destruct (isChar sectionMark c) eqn:Hc; [|discriminate].
  apply N.eqb_eq in Hc. subst c. intros H.
  apply rmatch_sound in H. destruct H as [u [s1 [Ht [Hu Hs1]]]].
  inversion Hs1; subst s1. exists u. split; [congruence|].
  eapply Forall_impl; [|exact Hu]. apply afterMark_alphabet.
Qed.

Lemma startsReference_mark s :
  startsReference s = true -> exists t, s = sectionMark :: t.
Proof.
  destruct s as [|c t]; simpl; [discriminate|]. intros H.
  apply andb_true_iff in H. destruct H as [H _]. apply N.eqb_eq in H.
  exists t. congruence.
Qed.

Lemma referenceCount_cons c t :
  referenceCount (c :: t) =
  ((if startsReference (c :: t) then 1 else 0) + referenceCount t)%nat.
Proof. reflexivity. Qed.

(** The global match counts the positions at which a citation starts. *)
Lemma countMatchesFrom_refRegex s : forall skip,
  Forall (fun c => c <> sectionMark) (firstn skip s) ->
  countMatchesFrom refRegex s skip = referenceCount s.
Proof.
  induction s as [|c t IH]; intros skip Hskip.
  - simpl. destruct skip; reflexivity.
  - destruct skip as [|n].
    + simpl countMatchesFrom. rewrite referenceCount_cons.
      destruct (matchAt refRegex (c :: t)) as [rest|] eqn:Hm.
      * assert (Hs : startsReference (c :: t) = true)
          by (apply matchAt_refRegex_starts; congruence).
        rewrite Hs. simpl. f_equal.
        destruct (matchAt_refRegex_shape _ Hm) as [u [Hu Hno]].
        inversion Hu; subst c t.
        change (sectionMark :: u ++ rest) with ((sectionMark :: u) ++ rest).
        rewrite consumed_app.
        replace (length (sectionMark :: u) - 1)%nat with (length u)
          by (simpl; lia).
        apply IH. rewrite firstn_app, firstn_all, Nat.sub_diag. simpl.
        rewrite app_nil_r. exact Hno.
      * destruct (startsReference (c :: t)) eqn:Hs.
        -- apply matchAt_refRegex_starts in Hs. congruence.
        -- apply IH. constructor.
    + simpl in Hskip. inversion Hskip as [|? ? Hc Hrest]; subst.
      simpl countMatchesFrom. rewrite referenceCount_cons.
      destruct (startsReference (c :: t)) eqn:Hs.
      * apply startsReference_mark in Hs. destruct Hs as [t' Hs]. congruence.
      * apply IH, Hrest.
Qed.

Lemma countMatches_refRegex s : countMatches refRegex s = referenceCount s.
Proof. apply countMatchesFrom_refRegex. constructor. Qed.

Lemma referenceCount_no_mark s :
  ~ In sectionMark s -> referenceCount s = 0%nat.
Proof.
  induction s as [|c t IH]; intros Hno; [reflexivity|].
  rewrite referenceCount_cons, IH by (intro; apply Hno; right; assumption).
  destruct (startsReference (c :: t)) eqn:Hs; [|reflexivity].
  apply startsReference_mark in Hs. destruct Hs as [t' Hs].
  exfalso. apply Hno. left. congruence.
Qed.

(** A citation starts at the front of [s] exactly when [s] begins with a
    text of the shape the specification describes. *)
Lemma startsReference_iff s :
  startsReference s = true <->
  exists ref rest, IsReference ref /\ s = ref ++ rest.
Proof.
  split.
  - destruct s as [|c t]; simpl; [discriminate|]. intros H.
    apply andb_true_iff in H. destruct H as [Hc Hd].
    apply N.eqb_eq in Hc. subst c.
    destruct (dropWhile_split isWhiteSpace t) as [pre [Hpre Ht]].
    destruct (dropWhile isWhiteSpace t) as [|d t']; [discriminate|].
    exists (sectionMark :: pre ++ [d] ++ flat_map (fun g' => fullStop :: g') []), t'.
    split.
    + constructor; [exact Hpre| |constructor].
      split; [discriminate|]. constructor; [exact Hd|constructor].
    + simpl. rewrite <- app_assoc. simpl. congruence.
  - intros [ref [rest [Href Hs]]]. subst s.
    destruct Href as [sp g gs Hsp [Hne Hg] _].
    destruct g as [|d g]; [congruence|]. inversion Hg as [|? ? Hd _]; subst.
    simpl. rewrite <- !app_assoc. simpl.
    rewrite dropWhile_app_stop; [exact Hd|exact Hsp|].
    apply digit_not_space, Hd.
Qed.

(* ------------------------------------------------------------------------- *)
(** ** Defined-term density                                                  *)
(* ------------------------------------------------------------------------- *)

Lemma dropWhile_head p s c t : dropWhile p s = c :: t -> p c = false.
Proof.
  induction s as [|d s IH]; simpl; [discriminate|].
  destruct (p d) eqn:Hd; [exact IH|]. intros E. inversion E; subst. exact Hd.
Qed.

Lemma isNotChar_true a c : isNotChar a c = true <-> c <> a.
Proof.
  unfold isNotChar. rewrite negb_true_iff. split.
  - intros H E. subst. rewrite N.eqb_refl in H. discriminate.
  - intros H. apply N.eqb_neq, H.
Qed.

Lemma isNotChar_false a c : isNotChar a c = false <-> c = a.
Proof.
  unfold isNotChar. rewrite negb_false_iff. apply N.eqb_eq.
Qed.

Lemma matchAt_defRegex s :
  matchAt defRegex s =
  match s with
  | q :: c :: t =>
      if isChar leftQuote q && isNotChar rightQuote c then
        match dropWhile (isNotChar rightQuote) t with
        | _ :: rest => Some rest
        | [] => None
        end
      else None
  | _ => None
  end.
Proof.
  unfold matchAt, defRegex, Plus.
  destruct s as [|q [|c t]].
  - reflexivity.
  - rewrite rmatch_seq, rmatch_cls. destruct (isChar leftQuote q); reflexivity.
  - rewrite rmatch_seq, rmatch_cls.
    destruct (isChar leftQuote q); [|reflexivity]. simpl andb.
    rewrite !rmatch_seq, rmatch_cls.
    destruct (isNotChar rightQuote c); [|reflexivity].
    rewrite rmatch_star_cls_commit.
    + destruct (dropWhile (isNotChar rightQuote) t) as [|x rest] eqn:Hd;
        [reflexivity|].
      apply dropWhile_head in Hd. apply isNotChar_false in Hd. subst x.
      reflexivity.
    + intros d u Hd. rewrite rmatch_cls. unfold isChar.
      apply isNotChar_true in Hd. apply N.eqb_neq in Hd. rewrite Hd.
      reflexivity.
Qed.

(** The expression matches a quoted span, and nothing else. *)
Lemma matchAt_defRegex_iff s rest :
  matchAt defRegex s = Some rest <-> exists q, IsQuoted q /\ s = q ++ rest.
Proof.
  rewrite matchAt_defRegex. split.
  - destruct s as [|q [|c t]]; try discriminate.
    destruct (isChar leftQuote q) eqn:Hq; [|discriminate].
    destruct (isNotChar rightQuote c) eqn:Hc; [|discriminate]. simpl.
    destruct (dropWhile_split (isNotChar rightQuote) t) as [pre [Hpre Ht]].
    destruct (dropWhile (isNotChar rightQuote) t) as [|x r] eqn:Hd;
      [discriminate|].
    intros E. inversion E; subst r. clear E.
    apply dropWhile_head in Hd. apply isNotChar_false in Hd. subst x.
    apply N.eqb_eq in Hq. subst q.
    exists (leftQuote :: (c :: pre) ++ [rightQuote]). split.
    + constructor; [discriminate|].
      constructor; [apply isNotChar_true, Hc|].
      eapply Forall_impl; [|exact Hpre]. intros a. apply isNotChar_true.
    + simpl. rewrite <- app_assoc. simpl. congruence.
  - intros [q [Hq Hs]]. subst s.
    destruct Hq as [body Hne Hbody].
    destruct body as [|c body]; [congruence|].
    inversion Hbody as [|? ? Hc Hrest]; subst.
    simpl. rewrite <- app_assoc. simpl.
    replace (isChar leftQuote leftQuote) with true by reflexivity.
    apply isNotChar_true in Hc. rewrite Hc. simpl.
    rewrite dropWhile_app_stop; [reflexivity| |reflexivity].
    eapply Forall_impl; [|exact Hrest]. intros a. apply isNotChar_true.
Qed.

Lemma QuotedAt_matchAt s : QuotedAt s <-> matchAt defRegex s <> None.
Proof.
  split.
  - intros [q [rest [Hq Hs]]].
    assert (H : matchAt defRegex s = Some rest)
      by (apply matchAt_defRegex_iff; exists q; split; assumption).
    congruence.
  - destruct (matchAt defRegex s) as [rest|] eqn:Hm; [|congruence].
    intros _. apply matchAt_defRegex_iff in Hm. destruct Hm as [q [Hq Hs]].
    exists q, rest. split; assumption.
Qed.

(** No match anywhere: the global match finds nothing. *)
Lemma countMatchesFrom_none r s :
  (forall pre post, s = pre ++ post -> matchAt r post = None) ->
  forall skip, countMatchesFrom r s skip = 0%nat.
Proof.
  induction s as [|c t IH]; intros Hnone skip.
  - simpl. rewrite (Hnone [] [] eq_refl). destruct skip; reflexivity.
  - assert (Ht : forall pre post, t = pre ++ post -> matchAt r post = None).
    { intros pre post E. apply (Hnone (c :: pre)). simpl. congruence. }
    simpl. destruct skip as [|n]; [|apply IH, Ht].
    rewrite (Hnone [] (c :: t) eq_refl). apply IH, Ht.
Qed.

(** A prefix in which no match starts does not count. *)
Lemma countMatchesFrom_prefix r x pre :
  (forall a b, pre = a ++ b -> b <> [] -> matchAt r (b ++ x) = None) ->
  countMatchesFrom r (pre ++ x) 0 = countMatchesFrom r x 0.
Proof.
  induction pre as [|c pre IH]; intros Hnone; [reflexivity|].
  simpl. change (c :: pre ++ x) with ((c :: pre) ++ x).
  rewrite (Hnone [] (c :: pre) eq_refl) by discriminate.
  apply IH. intros a b E Hb. apply (Hnone (c :: a)); [|exact Hb].
  simpl. congruence.
Qed.

Lemma QuotedSpans_count s n :
  QuotedSpans s n -> countMatches defRegex s = n.
Proof.
  unfold countMatches.
  induction 1 as [s Hnone|pre q post n Hq Hleft _ IH].
  - apply countMatchesFrom_none. intros pre post E.
    destruct (matchAt defRegex post) eqn:Hm; [|reflexivity].
    exfalso. apply (Hnone pre post E). apply QuotedAt_matchAt. congruence.
  - rewrite countMatchesFrom_prefix.
    + assert (Hm : matchAt defRegex (q ++ post) = Some post)
        by (apply matchAt_defRegex_iff; exists q; split; [assumption|reflexivity]).
      destruct Hq as [body Hne Hbody].
      change ((leftQuote :: body ++ [rightQuote]) ++ post)
        with (leftQuote :: (body ++ [rightQuote]) ++ post) in *.
      simpl countMatchesFrom. rewrite Hm.
      change (leftQuote :: (body ++ [rightQuote]) ++ post)
        with ((leftQuote :: body ++ [rightQuote]) ++ post).
      rewrite consumed_app.
      replace (length (leftQuote :: body ++ [rightQuote]) - 1)%nat
        with (length (body ++ [rightQuote])) by (simpl; lia).
      rewrite countMatchesFrom_skip. f_equal. exact IH.
    + intros a b E Hb.
      destruct (matchAt defRegex (b ++ q ++ post)) eqn:Hm; [|reflexivity].
      exfalso. apply (Hleft a b E Hb). apply QuotedAt_matchAt. congruence.
Qed.

(** The first quoted span of a text, if it has one. *)
Lemma first_quoted s :
  (forall pre post, s = pre ++ post -> ~ QuotedAt post)
  \/ (exists pre q post,
        s = pre ++ q ++ post /\ IsQuoted q
        /\ forall a b, pre = a ++ b -> b <> [] -> ~ QuotedAt (b ++ q ++ post)).
Proof.
  induction s as [|c t IH].
  - left. intros pre post E H.
    symmetry in E. apply app_eq_nil in E. destruct E as [_ E]. subst post.
    apply QuotedAt_matchAt in H. apply H. reflexivity.
  - destruct (matchAt defRegex (c :: t)) as [rest|] eqn:Hm.
    + right. apply matchAt_defRegex_iff in Hm. destruct Hm as [q [Hq Hs]].
      exists [], q, rest. split; [exact Hs|]. split; [exact Hq|].
      intros a b E Hb. symmetry in E. apply app_eq_nil in E.
      destruct E as [_ E]. congruence.
    + assert (Hhere : ~ QuotedAt (c :: t)).
      { intros H. apply QuotedAt_matchAt in H. congruence. }
      destruct IH as [Hnone|[pre [q [post [Hs [Hq Hleft]]]]]].
      * left. intros pre post E. destruct pre as [|d pre].
        -- simpl in E. subst post. exact Hhere.
        -- inversion E; subst. apply (Hnone pre post eq_refl).
      * right. exists (c :: pre), q, post.
        split; [simpl; congruence|]. split; [exact Hq|].
        intros a b E Hb. destruct a as [|d a].
        -- simpl in E. subst b. simpl. rewrite <- Hs. exact Hhere.
        -- inversion E; subst. apply (Hleft a b eq_refl Hb).
Qed.

Lemma QuotedSpans_exists n : forall s,
  (length s <= n)%nat -> exists m, QuotedSpans s m.
Proof.
  induction n as [|n IH]; intros s Hn.
  - destruct s; [|simpl in Hn; lia]. exists 0%nat. constructor.
    intros pre post E H. symmetry in E. apply app_eq_nil in E.
    destruct E as [_ E]. subst post.
    apply QuotedAt_matchAt in H. apply H. reflexivity.
  - destruct (first_quoted s) as [Hnone|[pre [q [post [Hs [Hq Hleft]]]]]].
    + exists 0%nat. constructor. exact Hnone.
    + destruct (IH post) as [m Hm].
      * subst s. rewrite !length_app in Hn.
        destruct Hq as [body _ _]. simpl in Hn. lia.
      * exists (S m). subst s. constructor; assumption.
Qed.

Lemma QuotedSpans_countMatches s : QuotedSpans s (countMatches defRegex s).
Proof.
  destruct (@QuotedSpans_exists (length s) s (le_n _)) as [m Hm].
  rewrite (QuotedSpans_count Hm). exact Hm.
Qed.

(* ------------------------------------------------------------------------- *)
(** ** The densities                                                         *)
(* ------------------------------------------------------------------------- *)

Lemma tokensFrom_empty s : forall cur,
  tokensFrom cur s = [] -> cur = [] /\ AllWhiteSpace s.
Proof.
  induction s as [|c t IH]; intros cur H; simpl in H.
  - destruct cur; [split; [reflexivity|constructor]|discriminate].
  - destruct (isWhiteSpace c) eqn:Hc.
    + destruct cur; [|discriminate].
      destruct (IH _ H) as [_ Ht]. split; [reflexivity|].
      constructor; assumption.
    + destruct (IH _ H) as [E _]. discriminate.
Qed.

Lemma countWords_zero s : countWords s = 0%nat -> AllWhiteSpace s.
Proof.
  rewrite countWords_tokens. intros H. apply length_zero_iff_nil in H.
  apply tokensFrom_empty in H. apply H.
Qed.

Lemma white_space_no_mark s : AllWhiteSpace s -> ~ In sectionMark s.
Proof.
  intros Hws Hin. unfold AllWhiteSpace in Hws. rewrite Forall_forall in Hws.
  specialize (Hws _ Hin). vm_compute in Hws. discriminate.
Qed.

Lemma white_space_no_quote s :
  AllWhiteSpace s -> countMatches defRegex s = 0%nat.
Proof.
  intros Hws. apply countMatchesFrom_none. intros pre post E. subst s.
  apply Forall_app in Hws. destruct Hws as [_ Hpost].
  rewrite matchAt_defRegex. destruct post as [|q [|c t]]; try reflexivity.
  inversion Hpost as [|? ? Hq _]; subst.
  destruct (isChar leftQuote q) eqn:Hl; [|reflexivity].
  apply N.eqb_eq in Hl. subst q. vm_compute in Hq. discriminate.
Qed.

(** C1. For a text whose word count is 0 the code divides 0 by 0: both
    densities are NaN, not 0 as the specification requires. *)
Theorem zero_words_densities_nan (info : Info) :
  wordCount (snapshotOf info) = 0%nat ->
  PrimFloat.is_nan (refDensity (snapshotOf info)) = true
  /\ PrimFloat.is_nan (defFreq (snapshotOf info)) = true.
Proof.
  unfold snapshotOf. simpl. intros H.
  pose proof (countWords_zero _ H) as Hws.
  unfold computeRefDensity, computeDefFreq.
  rewrite H, countMatches_refRegex.
  rewrite (@referenceCount_no_mark _ (@white_space_no_mark _ Hws)).
  rewrite (@white_space_no_quote _ Hws).
  split; reflexivity.
Qed.

(** The empty text: both densities are NaN, so neither is 0. *)
Lemma zero_words_densities_nan_empty :
  wordCount (snapshotOf emptyInfo) = 0%nat
  /\ PrimFloat.is_nan (refDensity (snapshotOf emptyInfo)) = true
  /\ PrimFloat.is_nan (defFreq (snapshotOf emptyInfo)) = true
  /\ refDensity (snapshotOf emptyInfo) <> 0%float
  /\ defFreq (snapshotOf emptyInfo) <> 0%float.
Proof.
  split; [reflexivity|].
  destruct (zero_words_densities_nan emptyInfo eq_refl) as [Hr Hd].
  split; [exact Hr|]. split; [exact Hd|].
  split; intros E; [rewrite E in Hr|rewrite E in Hd]; discriminate.
Defined.

(** C5. When the word count is positive, the reference density is the
    number of citations in the text divided by the word count, times 1000.
    A citation is counted once for each position where the section mark is
    followed, after optional white space, by a digit group (and then any
    number of digit groups led by a full stop); a text without a section
    mark has none, whatever digits it holds. *)
Theorem refDensity_counts_references (info : Info) :
  (0 < wordCount (snapshotOf info))%nat ->
  refDensity (snapshotOf info)
  = (toNumber (referenceCount (content info))
     / toNumber (wordCount (snapshotOf info)) * 1000)%float
  /\ (forall s, startsReference s = true
                <-> exists ref rest, IsReference ref /\ s = ref ++ rest)
  /\ (~ In sectionMark (content info)
      -> countMatches refRegex (content info) = 0%nat).
Proof.
  intros _. split; [|split].
  - unfold snapshotOf. simpl. unfold computeRefDensity.
    rewrite countMatches_refRegex. reflexivity.
  - apply startsReference_iff.
  - intros Hno. rewrite countMatches_refRegex.
    apply referenceCount_no_mark, Hno.
Qed.

(** The first scenario: nine words and one citation give 111.11... *)
Lemma refDensity_scenario1 :
  wordCount (snapshotOf scenario1Info) = 9%nat
  /\ referenceCount scenario1 = 1%nat
  /\ refDensity (snapshotOf scenario1Info) = (toNumber 1 / toNumber 9 * 1000)%float
  /\ (PrimFloat.leb 111.11 (refDensity (snapshotOf scenario1Info)) = true)
  /\ (PrimFloat.ltb (refDensity (snapshotOf scenario1Info)) 111.12 = true).
Proof.
  assert (Hw : (0 < wordCount (snapshotOf scenario1Info))%nat)
    by (vm_compute; lia).
  destruct (refDensity_counts_references scenario1Info Hw) as [E _].
  split; [vm_compute; reflexivity|].
  split; [vm_compute; reflexivity|].
  rewrite E.
  split; [vm_compute; reflexivity|].
  split; vm_compute; reflexivity.
Defined.

(** C6. When the word count is positive, the defined-term density is the
    number of quoted spans divided by the word count, unscaled. The spans
    are taken from the left, each the first one that starts at or after the
    end of the one before, so they do not overlap and a quotation inside a
    span is not counted again; the number so obtained is unique. *)
Theorem defFreq_counts_quoted_spans (info : Info) :
  (0 < wordCount (snapshotOf info))%nat ->
  exists n,
    QuotedSpans (content info) n
    /\ (forall m, QuotedSpans (content info) m -> m = n)
    /\ defFreq (snapshotOf info)
       = (toNumber n / toNumber (wordCount (snapshotOf info)))%float.
Proof.
  intros _. exists (countMatches defRegex (content info)).
  split; [apply QuotedSpans_countMatches|]. split.
  - intros m Hm. symmetry. apply QuotedSpans_count, Hm.
  - reflexivity.
Qed.

(** One span for a quotation nested in another one; one span in the first
    scenario, where the density is 1/9. *)
Lemma defFreq_nested_quotes :
  (exists n, QuotedSpans nestedQuotes n
             /\ defFreq (snapshotOf nestedInfo)
                = (toNumber n / toNumber (wordCount (snapshotOf nestedInfo)))%float)
  /\ countMatches defRegex nestedQuotes = 1%nat
  /\ defFreq (snapshotOf scenario1Info) = (toNumber 1 / toNumber 9)%float.
Proof.
  split; [|split; vm_compute; reflexivity].
  assert (Hw : (0 < wordCount (snapshotOf nestedInfo))%nat)
    by (vm_compute; lia).
  destruct (defFreq_counts_quoted_spans nestedInfo Hw) as [n [Hn [_ E]]].
  exists n. split; [exact Hn|exact E].
Defined.

(* ------------------------------------------------------------------------- *)
(** ** The fingerprint                                                       *)
(* ------------------------------------------------------------------------- *)

Lemma hexDigit_hex n :
  (0 <= n < 16)%Z -> Sha256.isHexDigit (Sha256.hexDigit n) = true.
Proof.
  intros Hn. rewrite <- (Z2Nat.id n) by lia.
  assert (Hm : (Z.to_nat n < 16)%nat) by lia.
  revert Hm. generalize (Z.to_nat n). intros m Hm.
  do 16 (destruct m as [|m]; [reflexivity|]). lia.
Qed.

Lemma hexWord_length w : length (Sha256.hexWord w) = 8%nat.
Proof. reflexivity. Qed.

Lemma hexWord_hex w :
  Forall (fun c => Sha256.isHexDigit c = true) (Sha256.hexWord w).
Proof.
  unfold Sha256.hexWord. apply Forall_map, Forall_forall. intros i _.
  apply hexDigit_hex. change 15%Z with (Z.ones 4).
  rewrite Z.land_ones by lia. apply Z.mod_pos_bound. reflexivity.
Qed.

Lemma hex_length s : length (Sha256.hex s) = 64%nat.
Proof.
  unfold Sha256.hex. rewrite !length_app, !hexWord_length. reflexivity.
Qed.

Lemma hex_hex s : Forall (fun c => Sha256.isHexDigit c = true) (Sha256.hex s).
Proof.
  unfold Sha256.hex. repeat (apply Forall_app; split); apply hexWord_hex.
Qed.

(** The model computes SHA-256: the test vectors of FIPS 180-4. *)
Lemma computeChecksum_abc :
  computeChecksum (ofAscii "abc")
  = ofAscii "ba7816bf8f01cfea414140de5dae2223b00361a396177a9cb410ff61f20015ad".
Proof. vm_compute. reflexivity. Qed.

Lemma computeChecksum_two_blocks :
  computeChecksum
    (ofAscii "abcdbcdecdefdefgefghfghighijhijkijkljklmklmnlmnomnopnopq")
  = ofAscii "248d6a61d20638b8e5c026930c3e6039a33ce45964ff2167f6ecedd419db06c1".
Proof. vm_compute. reflexivity. Qed.

(** C4. The fingerprint is a function of the bytes of the text (its UTF-8
    encoding) and of nothing else: two texts with the same bytes, whenever
    and for whatever title they are processed, get the same fingerprint,
    and a fingerprint is a string of 64 lower-case hexadecimal digits. *)
Theorem checksum_deterministic (i1 i2 : Info) :
  Sha256.utf8Encode (content i1) = Sha256.utf8Encode (content i2) ->
  checksum (snapshotOf i1) = checksum (snapshotOf i2)
  /\ length (checksum (snapshotOf i1)) = 64%nat
  /\ Forall (fun c => Sha256.isHexDigit c = true) (checksum (snapshotOf i1)).
Proof.
  intros H.
  assert (E : forall i, checksum (snapshotOf i)
                        = Sha256.hex (Sha256.digest (Sha256.utf8Encode (content i))))
    by reflexivity.
  rewrite !E, H.
  split; [reflexivity|]. split; [apply hex_length|apply hex_hex].
Qed.

Lemma checksum_same_text_later :
  infoVersionDate scenario1Info <> infoVersionDate scenario1Later
  /\ checksum (snapshotOf scenario1Info) = checksum (snapshotOf scenario1Later)
  /\ length (checksum (snapshotOf scenario1Info)) = 64%nat.
Proof.
  split; [discriminate|].
  destruct (checksum_deterministic scenario1Info scenario1Later eq_refl)
    as [E [L _]].
  split; [exact E|exact L].
Defined.

(* ------------------------------------------------------------------------- *)
(** ** The ingestion run                                                     *)
(* ------------------------------------------------------------------------- *)

Lemma create_appends w t db doc db' :
  create w t db doc = Ok db' -> db' = db ++ [mkDoc (length db) doc].
Proof.
  unfold create. destruct (storeAccepts w t); [|discriminate].
  intros E. inversion E. reflexivity.
Qed.




(** A loop that finished wrote one document for each title it fetched. *)
Lemma ingestLoop_finished w TITLES : forall db log db' log',
  ingestLoop w TITLES db log = Finished db' log' ->
  exists new, db' = db ++ new
              /\ map fields new = flat_map (observation w) TITLES.
Proof.
  induction TITLES as [|t rest IH]; intros db log db' log' H; simpl in H.
  - inversion H; subst. exists []. rewrite app_nil_r. split; reflexivity.
  - simpl flat_map. unfold observation at 1.
    destruct (fetchTitle w t) as [[info|] out]; simpl fst.
    + destruct (create w t db (snapshotOf info)) as [db1|e] eqn:Hc;
        [|discriminate].
      apply create_appends in Hc. subst db1.
      apply IH in H. destruct H as [new [Hdb' Hnew]].
      exists (mkDoc (length db) (snapshotOf info) :: new). split.
      * rewrite Hdb', <- app_assoc. reflexivity.
      * simpl. rewrite Hnew. reflexivity.
    + apply IH in H. exact H.
Qed.

(** With a store that accepts every insert the loop reaches its end. *)
Lemma ingestLoop_completes w TITLES :
  (forall t, In t TITLES -> storeAccepts w t = true) ->
  forall db log, exists db',
    ingestLoop w TITLES db log
    = Finished db' (log ++ flat_map (unitLog w) TITLES).
Proof.
  induction TITLES as [|t rest IH]; intros Hstore db log.
  - exists db. simpl. rewrite app_nil_r. reflexivity.
  - simpl ingestLoop. simpl flat_map. unfold unitLog at 1.
    assert (Hrest : forall t', In t' rest -> storeAccepts w t' = true)
      by (intros t' Ht'; apply Hstore; right; exact Ht').
    destruct (fetchTitle w t) as [[info|] out]; simpl fst; simpl snd.
    + unfold create. rewrite (Hstore t (or_introl eq_refl)).
      destruct (IH Hrest (db ++ [mkDoc (length db) (snapshotOf info)])
                   (log ++ out ++ [Ingested t])) as [db' Hdb'].
      exists db'. rewrite Hdb'. f_equal. rewrite <- !app_assoc. reflexivity.
    + destruct (IH Hrest db (log ++ out)) as [db' Hdb'].
      exists db'. rewrite Hdb'. f_equal.
      rewrite app_nil_r, <- !app_assoc. reflexivity.
Qed.

(** A fetch that gives nothing has logged the error under the title. *)
Lemma fetchTitle_failure w t :
  fst (fetchTitle w t) = None ->
  exists e before,
    snd (fetchTitle w t) = before ++ [ErrorFetchingTitle t e].
Proof.
  unfold fetchTitle.
  destruct (getLatestVersionDate w t) as [[versionDate|e] log].
  - destruct (fullXml w versionDate t) as [xml|e].
    + destruct (parseStringPromise w xml) as [result|e].
      * discriminate.
      * intros _. exists e, log. reflexivity.
    + intros _. exists e, log. reflexivity.
  - intros _. exists e, log. reflexivity.
Qed.

(** C2 (as amended). A failure of the version lookup, of the document
    request or of the parse of one title ends the work on that title only:
    it is logged under the title's number, no snapshot is written for it,
    and the loop goes on to every remaining title. This holds for a run
    whose listing and connection succeeded and whose store accepts the
    inserts. *)
Theorem fetch_failures_do_not_stop_the_run (w : World) (db : collection) :
  (exists titlesResp, listing w = Ok titlesResp) ->
  connect w = Ok tt ->
  disconnect w = Ok tt ->
  (forall t, In t (titlesOf w) -> storeAccepts w t = true) ->
  exists db',
    ingestAll w db
    = Finished db' (flat_map (unitLog w) (titlesOf w) ++ [Done])
    /\ map fields db'
       = map fields db ++ flat_map (observation w) (titlesOf w)
    /\ forall t, In t (titlesOf w) -> fst (fetchTitle w t) = None ->
         observation w t = []
         /\ exists e before,
              unitLog w t = before ++ [ErrorFetchingTitle t e].
Proof.
  intros [titlesResp Hl] Hc Hd Hstore.
  unfold ingestAll, titlesOf in *. rewrite Hl in *. rewrite Hc.
  destruct (ingestLoop_completes w _ Hstore db []) as [db' Hrun].
  rewrite Hrun, Hd. exists db'. split; [reflexivity|]. split.
  - destruct (ingestLoop_finished _ _ _ _ Hrun) as [new [Hdb' Hnew]].
    rewrite Hdb', map_app, Hnew. reflexivity.
  - intros t _ Hnone. unfold observation, unitLog. rewrite Hnone.
    split; [reflexivity|].
    destruct (fetchTitle_failure w t Hnone) as [e [before Hlog]].
    exists e, before. rewrite Hlog, app_nil_r. reflexivity.
Qed.

(** Three titles, the document of the second cannot be fetched: the first
    and the third are written, the second is logged. *)
Lemma fetch_failure_isolated :
  exists db,
    ingestAll fetchFailsAtTitle2 []
    = Finished db [Ingested 1; ErrorFetchingTitle 2 NetworkError;
                   Ingested 3; Done]
    /\ map (fun d => agency (fields d)) db = [titleLabel 1; titleLabel 3].
Proof.
  destruct (fetch_failures_do_not_stop_the_run fetchFailsAtTitle2 [])
    as [db [Hrun [Hdb _]]].
  - exists catalog123. reflexivity.
  - reflexivity.
  - reflexivity.
  - reflexivity.
  - exists db. split; [exact Hrun|].
    change (fun d : Doc => agency (fields d))
      with (fun d : Doc => (fun s => agency s) (fields d)).
    rewrite <- (map_map fields (fun s => agency s)), Hdb.
    vm_compute. reflexivity.
Defined.

(** C2, as stated, fails: the rejected insert for title 2 leaves
    [ingestAll]; title 3 is never fetched although it would have been
    ingested, and the only record of the failure is the run's. *)
Lemma store_failure_aborts_the_run :
  exists db,
    ingestAll storeDownAtTitle2 [] = Aborted StoreError db [Ingested 1]
    /\ map (fun d => agency (fields d)) db = [titleLabel 1]
    /\ snd (main storeDownAtTitle2 [])
       = [Ingested 1; IngestionFailed StoreError]
    /\ observation storeDownAtTitle2 3 <> [].
Proof.
  eexists. split; [vm_compute; reflexivity|].
  split; [vm_compute; reflexivity|].
  split; [vm_compute; reflexivity|].
  vm_compute. discriminate.
Qed.


(** Two runs over unchanged sources: four documents, identifiers 0 to 3,
    the snapshots of the first run repeated by the second. *)
Lemma rerun_adds_duplicates :
  exists db1 log1 db2 log2,
    ingestAll fetchFailsAtTitle2 [] = Finished db1 log1
    /\ ingestAll fetchFailsAtTitle2 db1 = Finished db2 log2
    /\ map _id db2 = [0; 1; 2; 3]%nat
    /\ map fields db2 = map fields db1 ++ map fields db1.
Proof.
  do 4 eexists. split; [vm_compute; reflexivity|].
  split; [vm_compute; reflexivity|].
  split; vm_compute; reflexivity.
Qed.

(* ------------------------------------------------------------------------- *)
(** ** The fallback of the extraction                                        *)
(* ------------------------------------------------------------------------- *)

(** C3 (as amended). When a document parses but holds no section, the raw
    document takes the place of the extracted text: the metrics are those
    of the raw document, and what is returned and written has the usual
    fields only. *)
Theorem fallback_substitutes_raw_document (w : World) (t : nat) :
  fallbackTaken w t = true ->
  exists versionDate xml result info,
    fullXml w versionDate t = Ok xml
    /\ parseStringPromise w xml = Ok result
    /\ fst (fetchTitle w t) = Some info
    /\ info = mkInfo (titleLabel t) (titleOf result t) versionDate xml
    /\ wordCount (snapshotOf info) = countWords xml
    /\ checksum (snapshotOf info) = computeChecksum xml.
Proof.
  unfold fallbackTaken, fetchTitle.
  destruct (getLatestVersionDate w t) as [[versionDate|e] log]; [|discriminate].
  destruct (fullXml w versionDate t) as [xml|e] eqn:Hx; [|discriminate].
  destruct (parseStringPromise w xml) as [result|e] eqn:Hp; [|discriminate].
  unfold extractContent.
  destruct (map sectionText (sectionsOf result)); [|discriminate].
  intros _. exists versionDate, xml, result. eexists.
  split; [exact Hx|]. split; [exact Hp|]. split; [reflexivity|].
  split; [reflexivity|]. split; reflexivity.
Qed.

Lemma fallback_of_document_without_sections :
  fallbackTaken servesNoSections 1 = true
  /\ exists info,
       fst (fetchTitle servesNoSections 1) = Some info
       /\ content info = noSections.
Proof.
  split; [reflexivity|].
  destruct (fallback_substitutes_raw_document servesNoSections 1 eq_refl)
    as [versionDate [xml [result [info [Hx [_ [Hf [Hi _]]]]]]]].
  exists info. split; [exact Hf|]. subst info. simpl.
  vm_compute in Hx. inversion Hx. reflexivity.
Defined.

(** C3, as stated, fails: nothing computed from the written snapshot can
    tell whether the fallback was taken. A document without sections and a
    document with one section of the same text give the same snapshot. *)
Lemma fallback_is_not_flagged :
  ~ exists flag : Snapshot -> bool,
      forall w t info,
        fst (fetchTitle w t) = Some info ->
        flag (snapshotOf info) = fallbackTaken w t.
Proof.
  intros [flag H].
  pose (info := mkInfo (titleLabel 1) (titleLabel 1) 19723%Z noSections).
  assert (HA : fst (fetchTitle servesNoSections 1) = Some info)
    by (vm_compute; reflexivity).
  assert (HB : fst (fetchTitle servesLabelled 1) = Some info)
    by (vm_compute; reflexivity).
  apply H in HA. apply H in HB.
  assert (FA : fallbackTaken servesNoSections 1 = true) by reflexivity.
  assert (FB : fallbackTaken servesLabelled 1 = false) by reflexivity.
  congruence.
Qed.

(* ------------------------------------------------------------------------- *)
(** ** Sorting                                                               *)
(* ------------------------------------------------------------------------- *)

Import Api.

Section Sorting.

Variable A : Type.
Variable key : A -> Z.
Variable cmp : A -> A -> thrown Z.

Local Abbreviation ascending := (ascendingBy key).

Lemma insertSorted_sorted x : forall l,
  (forall y, In y l -> cmp x y = Returned (key x - key y)%Z) ->
  StronglySorted ascending l ->
  exists out, insertSorted cmp x l = Returned out
              /\ Permutation (x :: l) out
              /\ StronglySorted ascending out.
Proof.
  induction l as [|y l IH]; intros Hcmp Hs.
  - exists [x]. repeat split; [apply Permutation_refl|].
    constructor; constructor.
  - simpl. rewrite (Hcmp y (or_introl eq_refl)).
    apply StronglySorted_inv in Hs. destruct Hs as [Hl Hy].
    destruct (Z.leb_spec (key x - key y) 0) as [Hle|Hgt].
    + exists (x :: y :: l). repeat split; [apply Permutation_refl|].
      constructor; [constructor; assumption|].
      constructor; [unfold ascendingBy; lia|].
      eapply Forall_impl; [|exact Hy]. unfold ascendingBy. intros z Hz. lia.
    + destruct (IH (fun z Hz => Hcmp z (or_intror Hz)) Hl)
        as [out [Hout [Hperm Hsorted]]].
      rewrite Hout. exists (y :: out). repeat split.
      * apply perm_trans with (y :: x :: l); [apply perm_swap|].
        apply perm_skip, Hperm.
      * constructor; [exact Hsorted|].
        apply (Permutation_Forall Hperm).
        constructor; [unfold ascendingBy; lia|exact Hy].
Qed.

(** With a comparator that answers the difference of the keys, the sort
    returns the elements in ascending order of the key. *)
Lemma sort_sorted : forall l,
  (forall a b, In a l -> In b l -> cmp a b = Returned (key a - key b)%Z) ->
  exists out, sort cmp l = Returned out
              /\ Permutation l out
              /\ StronglySorted ascending out.
Proof.
  induction l as [|x l IH]; intros Hcmp.
  - exists []. repeat split; [apply perm_nil|constructor].
  - destruct IH as [out [Hout [Hperm Hsorted]]].
    { intros a b Ha Hb. apply Hcmp; right; assumption. }
    simpl. rewrite Hout.
    destruct (@insertSorted_sorted x out) as [out' [Hout' [Hperm' Hsorted']]].
    + intros y Hy. apply Hcmp; [left; reflexivity|right].
      apply (Permutation_in _ (Permutation_sym Hperm) Hy).
    + exact Hsorted.
    + exists out'. repeat split; [exact Hout'| |exact Hsorted'].
      apply perm_trans with (x :: out); [apply perm_skip, Hperm|exact Hperm'].
Qed.

Variable bad : A -> bool.
Variable msg : jsstring.

Hypothesis cmp_good : forall a b,
  bad a = false -> bad b = false -> cmp a b = Returned (key a - key b)%Z.
Hypothesis cmp_bad : forall a b,
  bad a = true \/ bad b = true -> cmp a b = TypeError msg.


End Sorting.

(* ------------------------------------------------------------------------- *)
(** ** The read endpoints                                                    *)
(* ------------------------------------------------------------------------- *)

Lemma eqString_true a b : eqString a b = true <-> a = b.
Proof.
  unfold eqString. destruct (list_eq_dec N.eq_dec a b); split; congruence.
Qed.

Lemma byDateDescending_key a b :
  byDateDescending a b
  = Returned ((fun d => (- versionDate (fields d))%Z) a
              - (fun d => (- versionDate (fields d))%Z) b)%Z.
Proof. unfold byDateDescending. f_equal. lia. Qed.

(** C9 (as amended). For an agency with at least one stored snapshot the
    metrics endpoint answers with the word count, checksum, reference
    density and defined-term frequency of one of its snapshots whose
    version date is the latest among them. *)
Theorem metrics_of_latest_version (db : collection) (name : jsstring) :
  snapshotsOf db name <> [] ->
  exists doc,
    In doc db
    /\ agency (fields doc) = name
    /\ (forall d, In d db -> agency (fields d) = name ->
          (versionDate (fields d) <= versionDate (fields doc))%Z)
    /\ metricsHandler db name = json (metricsOf doc).
Proof.
  intros Hne. unfold metricsHandler, findLatest. fold (snapshotsOf db name).
  destruct (@sort_sorted Doc (fun d => (- versionDate (fields d))%Z)
              byDateDescending (snapshotsOf db name))
    as [out [Hout [Hperm Hsorted]]].
  { intros a b _ _. apply byDateDescending_key. }
  rewrite Hout. destruct out as [|doc rest].
  - apply Permutation_sym, Permutation_nil in Hperm. congruence.
  - assert (Hin : In doc (snapshotsOf db name))
      by (apply (Permutation_in _ (Permutation_sym Hperm)); left; reflexivity).
    apply filter_In in Hin. destruct Hin as [Hdb Hname].
    apply eqString_true in Hname.
    exists doc. split; [exact Hdb|]. split; [exact Hname|].
    split; [|reflexivity].
    intros d Hd Hdname.
    assert (Hd' : In d (doc :: rest)).
    { apply (Permutation_in _ Hperm). apply filter_In.
      split; [exact Hd|]. apply eqString_true, Hdname. }
    apply StronglySorted_inv in Hsorted. destruct Hsorted as [_ Hall].
    destruct Hd' as [E|Hd'].
    + subst d. lia.
    + rewrite Forall_forall in Hall. specialize (Hall d Hd').
      unfold ascendingBy in Hall. lia.
Qed.

(** Title 1 in [outOfOrder]: the answer is taken from the capture with the
    later version date. *)
Lemma metrics_of_latest_version_out_of_order :
  exists doc,
    In doc outOfOrder
    /\ versionDate (fields doc) = 19800%Z
    /\ metricsHandler outOfOrder (titleLabel 1) = json (metricsOf doc).
Proof.
  destruct (metrics_of_latest_version outOfOrder (titleLabel 1))
    as [doc [Hin [_ [Hmax Hresp]]]].
  - vm_compute. discriminate.
  - exists doc. split; [exact Hin|]. split; [|exact Hresp].
    assert (Hle : (19800 <= versionDate (fields doc))%Z).
    { apply (Hmax (mkDoc 0 (snapshotOf scenario1Later))).
      - left. reflexivity.
      - reflexivity. }
    destruct Hin as [E|[E|[]]]; subst doc; [reflexivity|].
    vm_compute in Hle. exfalso. apply Hle. reflexivity.
Defined.

(** C9, as stated, fails: the capture written last carries the earlier
    version date, and the endpoint answers with the other one. *)
Lemma metrics_not_of_last_written :
  exists first last,
    outOfOrder = [first; last]
    /\ lastWritten outOfOrder (titleLabel 1) = Some last
    /\ metricsHandler outOfOrder (titleLabel 1) = json (metricsOf first)
    /\ metricsHandler outOfOrder (titleLabel 1) <> json (metricsOf last).
Proof.
  do 2 eexists. split; [reflexivity|].
  split; [vm_compute; reflexivity|].
  split; [vm_compute; reflexivity|].
  vm_compute. intros E. inversion E.
Qed.









(* ------------------------------------------------------------------------- *)
(** ** Title labels: written by the ingestion, read by the listing           *)
(* ------------------------------------------------------------------------- *)

Import Endpoints Dashboard Laws.

Lemma dropWhile_app_all p pre s :
  Forall (fun c => p c = true) pre -> dropWhile p (pre ++ s) = dropWhile p s.
Proof.
  induction 1 as [|c pre Hc _ IH]; simpl; [reflexivity|]. rewrite Hc. exact IH.
Qed.

Lemma dropWhile_whole p s :
  Forall (fun c => p c = true) s -> dropWhile p s = [].
Proof.
  intros H. rewrite <- (app_nil_r s). rewrite dropWhile_app_all by exact H.
  reflexivity.
Qed.










(* ------------------------------------------------------------------------- *)
(** ** More on the ingestion run                                             *)
(* ------------------------------------------------------------------------- *)









(** Where a loop that was left stopped. *)
Lemma ingestLoop_aborted w TITLES : forall db log e db' log',
  ingestLoop w TITLES db log = Aborted e db' log' ->
  e = StoreError
  /\ exists before t after,
       TITLES = before ++ t :: after
       /\ observation w t <> []
       /\ storeAccepts w t = false
       /\ map fields db' = map fields db ++ flat_map (observation w) before
       /\ log' = log ++ flat_map (unitLog w) before ++ snd (fetchTitle w t).
Proof.
  induction TITLES as [|t rest IH]; intros db log e db' log' H;
    simpl in H; [discriminate|].
  destruct (fetchTitle w t) as [[info|] out] eqn:Hf.
  - unfold create in H. destruct (storeAccepts w t) eqn:Hs.
    + apply IH in H. destruct H as [He [before [u [after [Ht [Ho [Hu [Hd Hl]]]]]]]].
      split; [exact He|]. exists (t :: before), u, after.
      split; [simpl; congruence|]. split; [exact Ho|]. split; [exact Hu|].
      assert (Hobs : observation w t = [snapshotOf info])
        by (unfold observation; rewrite Hf; reflexivity).
      assert (Hul : unitLog w t = out ++ [Ingested t])
        by (unfold unitLog; rewrite Hf; reflexivity).
      simpl flat_map. rewrite Hobs, Hul. split.
      * rewrite Hd, map_app, <- app_assoc. reflexivity.
      * rewrite Hl, <- !app_assoc. reflexivity.
    + inversion H; subst. split; [reflexivity|].
      exists [], t, rest. split; [reflexivity|].
      split; [unfold observation; rewrite Hf; discriminate|].
      split; [exact Hs|]. simpl. rewrite Hf, app_nil_r. split; reflexivity.
  - apply IH in H. destruct H as [He [before [u [after [Ht [Ho [Hu [Hd Hl]]]]]]]].
    split; [exact He|]. exists (t :: before), u, after.
    split; [simpl; congruence|]. split; [exact Ho|]. split; [exact Hu|].
    assert (Hobs : observation w t = [])
      by (unfold observation; rewrite Hf; reflexivity).
    assert (Hul : unitLog w t = out)
      by (unfold unitLog; rewrite Hf; simpl; apply app_nil_r).
    simpl flat_map. rewrite Hobs, Hul. split.
    + exact Hd.
    + rewrite Hl, <- !app_assoc. reflexivity.
Qed.

(** X5. A run whose listing and connection succeeded is left early only
    by a rejected insert: it stops at the first fetched title whose insert
    the store rejects, with the snapshots of the titles before it written
    and none of the titles after it processed. Otherwise it is the
    disconnection that failed, after every title was processed. *)
Theorem run_stops_at_first_rejected_insert (w : World) (db : collection)
        (e : error) (db' : collection) (log : list event) :
  (exists titlesResp, listing w = Ok titlesResp) ->
  connect w = Ok tt ->
  ingestAll w db = Aborted e db' log ->
  (e = StoreError
   /\ exists before t after,
        titlesOf w = before ++ t :: after
        /\ observation w t <> []
        /\ storeAccepts w t = false
        /\ map fields db' = map fields db ++ flat_map (observation w) before
        /\ log = flat_map (unitLog w) before ++ snd (fetchTitle w t))
  \/ (disconnect w = Rejected e
      /\ map fields db'
         = map fields db ++ flat_map (observation w) (titlesOf w)).
Proof.
  intros [titlesResp Hl] Hc. unfold ingestAll, titlesOf. rewrite Hl, Hc.
  destruct (ingestLoop w (map number (titles titlesResp)) db [])
    as [d l|e' d l] eqn:Hrun.
  - destruct (disconnect w) as [u|e'] eqn:Hd; [discriminate|].
    intros E. inversion E; subst. right. split; [reflexivity|].
    apply ingestLoop_finished in Hrun. destruct Hrun as [new [Hdb Hnew]].
    rewrite Hdb, map_app, Hnew. reflexivity.
  - intros E. inversion E; subst. left.
    apply ingestLoop_aborted in Hrun. exact Hrun.
Qed.

Lemma run_stops_at_title_2 :
  exists db log,
    ingestAll storeDownAtTitle2 [] = Aborted StoreError db log
    /\ titlesOf storeDownAtTitle2 = [1%nat] ++ 2%nat :: [3%nat]
    /\ map fields db = flat_map (observation storeDownAtTitle2) [1%nat].
Proof.
  destruct (ingestAll storeDownAtTitle2 []) as [db log|e db log] eqn:Hrun;
    [vm_compute in Hrun; discriminate|].
  assert (He : e = StoreError) by (vm_compute in Hrun; congruence).
  subst e. exists db, log. split; [reflexivity|]. split; [reflexivity|].
  destruct (@run_stops_at_first_rejected_insert storeDownAtTitle2 [] _ _ _
              (ex_intro _ catalog123 eq_refl) eq_refl Hrun)
    as [[_ [before [t [after [Ht [_ [Hs [Hdb _]]]]]]]]|[Hd _]].
  - destruct before as [|b1 [|b2 before]].
    + inversion Ht; subst. vm_compute in Hs. discriminate.
    + inversion Ht; subst. exact Hdb.
    + inversion Ht; subst. destruct before as [|b3 before].
      * inversion H2; subst. vm_compute in Hs. discriminate.
      * inversion H2. destruct before; discriminate.
  - vm_compute in Hd. discriminate.
Defined.







(* ------------------------------------------------------------------------- *)
(** ** The extracted text                                                    *)
(* ------------------------------------------------------------------------- *)

Lemma dropWhile_app_keep p s x :
  dropWhile p s <> [] -> dropWhile p (s ++ x) = dropWhile p s ++ x.
Proof.
  induction s as [|c s IH]; simpl; [congruence|].
  destruct (p c); [exact IH|reflexivity].
Qed.

Lemma trim_leading sep s : AllWhiteSpace sep -> trim (sep ++ s) = trim s.
Proof.
  intros H. unfold trim. rewrite dropWhile_app_all by exact H. reflexivity.
Qed.

Lemma trim_trailing sep s : AllWhiteSpace sep -> trim (s ++ sep) = trim s.
Proof.
  intros H. unfold trim.
  destruct (dropWhile isWhiteSpace s) as [|c d] eqn:Hd.
  - destruct (dropWhile_split isWhiteSpace s) as [pre [Hpre Hs]].
    rewrite Hd, app_nil_r in Hs. subst pre.
    assert (Hall : dropWhile isWhiteSpace (s ++ sep) = []).
    { apply dropWhile_whole, Forall_app. split; assumption. }
    rewrite Hall. reflexivity.
  - rewrite dropWhile_app_keep by congruence. rewrite Hd.
    rewrite rev_app_distr, dropWhile_app_all; [reflexivity|].
    apply Forall_rev, H.
Qed.

Lemma trim_trimmed s : Trimmed (trim s).
Proof.
  unfold trim. set (d := dropWhile isWhiteSpace s).
  destruct (dropWhile_split isWhiteSpace (rev d)) as [pre [Hpre Hd]].
  set (e := dropWhile isWhiteSpace (rev d)) in *.
  assert (Hde : d = rev e ++ rev pre).
  { rewrite <- rev_app_distr, <- Hd, rev_involutive. reflexivity. }
  split.
  - intros c t Hc.
    destruct d as [|x d'] eqn:Ed.
    + assert (He : rev e = []) by (destruct (rev e); [reflexivity|discriminate]).
      rewrite He in Hc. discriminate.
    + rewrite Hc in Hde. simpl in Hde. inversion Hde; subst x.
      apply (dropWhile_head isWhiteSpace s (t := d')). exact Ed.
  - intros c t Hc.
    assert (He : e = c :: rev t).
    { rewrite <- (rev_involutive e), Hc, rev_app_distr. reflexivity. }
    apply (dropWhile_head isWhiteSpace (rev d) (t := rev t)). exact He.
Qed.

Lemma sectionText_shape sec :
  sectionText sec
  = trim (orElse (label sec) [] ++ [space] ++ paragraphsText sec).
Proof. reflexivity. Qed.

(** X7. The text of a section has no white space at either end. A section
    without label (or with an empty one) gives its paragraphs, one per
    line, trimmed; a section whose paragraphs are not an array gives its
    label, trimmed; with neither it gives the empty text. *)
Theorem sectionText_edges (sec : SectionNode) :
  Trimmed (sectionText sec)
  /\ (orElse (label sec) [] = [] ->
      sectionText sec = trim (paragraphsText sec))
  /\ (paragraph sec = None ->
      sectionText sec = trim (orElse (label sec) []))
  /\ (orElse (label sec) [] = [] -> paragraph sec = None ->
      sectionText sec = []).
Proof.
  rewrite sectionText_shape.
  assert (Hsp : AllWhiteSpace [space]) by (repeat constructor).
  split; [apply trim_trimmed|]. split; [|split].
  - intros Hl. rewrite Hl. simpl app.
    apply (trim_leading (paragraphsText sec) Hsp).
  - intros Hp. unfold paragraphsText. rewrite Hp, app_nil_r.
    apply trim_trailing, Hsp.
  - intros Hl Hp. unfold paragraphsText. rewrite Hl, Hp. reflexivity.
Qed.

Lemma tokensFrom_break a : forall cur c x,
  isWhiteSpace c = true ->
  tokensFrom cur (a ++ c :: x) = tokensFrom cur a ++ tokensFrom [] x.
Proof.
  induction a as [|d a IH]; intros cur c x Hc.
  - simpl. rewrite Hc. destruct cur; reflexivity.
  - simpl. destruct (isWhiteSpace d).
    + destruct cur; simpl; rewrite IH by exact Hc; reflexivity.
    + apply IH, Hc.
Qed.

Lemma tokensFrom_join parts :
  tokensFrom [] (join [lineFeed; lineFeed] parts)
  = concat (map (tokensFrom []) parts).
Proof.
  induction parts as [|p parts IH]; [reflexivity|].
  destruct parts as [|q parts].
  - simpl. rewrite app_nil_r. reflexivity.
  - change (join [lineFeed; lineFeed] (p :: q :: parts))
      with (p ++ lineFeed :: lineFeed :: join [lineFeed; lineFeed] (q :: parts)).
    rewrite tokensFrom_break by reflexivity.
    change (lineFeed :: join [lineFeed; lineFeed] (q :: parts))
      with ([lineFeed] ++ join [lineFeed; lineFeed] (q :: parts)).
    rewrite tokensFrom_leading by (repeat constructor).
    rewrite IH. reflexivity.
Qed.

Lemma countWords_sections xml result :
  sectionsOf result <> [] ->
  countWords (extractContent xml result)
  = list_sum (map (fun sec => countWords (sectionText sec)) (sectionsOf result)).
Proof.
  intros Hne. unfold extractContent.
  destruct (sectionsOf result) as [|sec secs]; [congruence|].
  set (texts := map sectionText (sec :: secs)).
  change (match texts with
          | [] => xml
          | _ :: _ => join [lineFeed; lineFeed] texts
          end) with (join [lineFeed; lineFeed] texts).
  rewrite countWords_tokens, tokensFrom_join, length_concat.
  unfold texts. rewrite !map_map. f_equal. apply map_ext.
  intros s. symmetry. apply countWords_tokens.
Qed.

(** X8. The word count of an extracted text is the sum of the word counts
    of the texts of its sections; without sections it is the word count of
    the raw document. *)
Theorem countWords_sums_over_sections (xml : jsstring) (result : Parsed) :
  (sectionsOf result <> [] ->
   countWords (extractContent xml result)
   = list_sum (map (fun sec => countWords (sectionText sec)) (sectionsOf result)))
  /\ (sectionsOf result = [] ->
      countWords (extractContent xml result) = countWords xml).
Proof.
  split.
  - apply countWords_sections.
  - intros He. unfold extractContent. rewrite He. reflexivity.
Qed.

(* ------------------------------------------------------------------------- *)
(** ** Bounds on the counts                                                  *)
(* ------------------------------------------------------------------------- *)

Lemma occurrences_app c a b :
  occurrences c (a ++ b) = (occurrences c a + occurrences c b)%nat.
Proof. unfold occurrences. apply count_occ_app. Qed.

Lemma occurrences_cons c d s :
  occurrences c (d :: s)
  = ((if N.eq_dec d c then 1 else 0) + occurrences c s)%nat.
Proof.
  unfold occurrences. simpl. destruct (N.eq_dec d c); reflexivity.
Qed.

Lemma referenceCount_bound s :
  (referenceCount s <= occurrences sectionMark s)%nat.
Proof.
  induction s as [|c t IH]; [apply Nat.le_0_l|].
  rewrite referenceCount_cons, occurrences_cons.
  destruct (startsReference (c :: t)) eqn:Hs.
  - apply startsReference_mark in Hs. destruct Hs as [t' Hs].
    inversion Hs; subst.
    destruct (N.eq_dec sectionMark sectionMark); [|congruence]. lia.
  - destruct (N.eq_dec c sectionMark); lia.
Qed.

Lemma IsQuoted_quotes q :
  IsQuoted q ->
  (1 <= occurrences leftQuote q)%nat /\ (1 <= occurrences rightQuote q)%nat.
Proof.
  intros [body _ _]. split.
  - rewrite occurrences_cons.
    destruct (N.eq_dec leftQuote leftQuote); [lia|congruence].
  - rewrite occurrences_cons, occurrences_app, occurrences_cons.
    destruct (N.eq_dec rightQuote rightQuote); [lia|congruence].
Qed.

Lemma QuotedSpans_bound s n :
  QuotedSpans s n ->
  (n <= occurrences leftQuote s)%nat /\ (n <= occurrences rightQuote s)%nat.
Proof.
  induction 1 as [s _|pre q post n Hq _ _ [IHl IHr]];
    [split; apply Nat.le_0_l|].
  destruct (IsQuoted_quotes Hq) as [Hl Hr].
  rewrite !occurrences_app. split; lia.
Qed.

(** X9. The text never yields more citations than it has section marks,
    nor more quoted spans than it has opening quotes or closing quotes. *)
Theorem counts_bounded_by_marks (content : jsstring) :
  (countMatches refRegex content <= occurrences sectionMark content)%nat
  /\ (countMatches defRegex content <= occurrences leftQuote content)%nat
  /\ (countMatches defRegex content <= occurrences rightQuote content)%nat.
Proof.
  split.
  - rewrite countMatches_refRegex. apply referenceCount_bound.
  - apply QuotedSpans_bound, QuotedSpans_countMatches.
Qed.

(* ------------------------------------------------------------------------- *)
(** ** More on the read endpoints                                            *)
(* ------------------------------------------------------------------------- *)

Lemma sort_total A (key : A -> Z) (cmp : A -> A -> thrown Z) l :
  (forall a b, cmp a b = Returned (key a - key b)%Z) ->
  exists out, sort cmp l = Returned out
              /\ Permutation l out
              /\ StronglySorted (ascendingBy key) out.
Proof. intros H. apply sort_sorted. intros a b _ _. apply H. Qed.


Lemma byDateAscending_key a b :
  byDateAscending a b
  = Returned ((fun d => versionDate (fields d)) a
              - (fun d => versionDate (fields d)) b)%Z.
Proof. reflexivity. Qed.

(** The history endpoint, document by document. *)
Lemma historyHandler_documents db name :
  exists docs,
    historyHandler db name = Json200 (map toPoint docs)
    /\ Permutation (snapshotsOf db name) docs
    /\ StronglySorted (ascendingBy (fun d => versionDate (fields d))) docs.
Proof.
  unfold historyHandler. fold (snapshotsOf db name).
  destruct (sort_total (fun d => versionDate (fields d)) byDateAscending
              (snapshotsOf db name) byDateAscending_key)
    as [out [Hout [Hperm Hsorted]]].
  rewrite Hout. exists out. repeat split; assumption.
Qed.



Lemma StronglySorted_last A (R : A -> A -> Prop) l x :
  StronglySorted R (l ++ [x]) -> Forall (fun a => R a x) l.
Proof.
  induction l as [|a l IH]; intros H; [constructor|].
  simpl in H. apply StronglySorted_inv in H. destruct H as [Hs Hall].
  constructor; [|apply IH, Hs].
  rewrite Forall_forall in Hall. apply Hall, in_or_app. right. left. reflexivity.
Qed.

(** X12. When one document of an agency carries a version date later than
    all its other documents, the last point of its history and the answer
    of the metrics endpoint come from that document: they show the same
    word count. *)
Theorem history_ends_where_metrics_are (db : collection) (name : jsstring)
        (latest : Doc) :
  In latest db ->
  agency (fields latest) = name ->
  (forall d, In d db -> agency (fields d) = name ->
             d = latest
             \/ (versionDate (fields d) < versionDate (fields latest))%Z) ->
  metricsHandler db name = json (metricsOf latest)
  /\ exists earlier,
       historyHandler db name = Json200 (earlier ++ [toPoint latest]).
Proof.
  intros Hin Hname Hlater.
  assert (Hmem : In latest (snapshotsOf db name)).
  { apply filter_In. split; [exact Hin|]. apply eqString_true, Hname. }
  assert (Hof : forall d, In d (snapshotsOf db name) ->
                          d = latest
                          \/ (versionDate (fields d)
                              < versionDate (fields latest))%Z).
  { intros d Hd. apply filter_In in Hd. destruct Hd as [Hd Hn].
    apply eqString_true in Hn. apply Hlater; assumption. }
  split.
  - unfold metricsHandler, findLatest. fold (snapshotsOf db name).
    destruct (sort_total (fun d => (- versionDate (fields d))%Z)
                byDateDescending (snapshotsOf db name) byDateDescending_key)
      as [out [Hout [Hperm Hsorted]]].
    rewrite Hout. destruct out as [|doc rest].
    + apply Permutation_sym, Permutation_nil in Hperm.
      rewrite Hperm in Hmem. destruct Hmem.
    + assert (Hdoc : In doc (snapshotsOf db name))
        by (apply (Permutation_in _ (Permutation_sym Hperm)); left; reflexivity).
      destruct (Hof doc Hdoc) as [E|Hlt]; [subst doc; reflexivity|].
      exfalso.
      assert (Hl : In latest (doc :: rest))
        by (apply (Permutation_in _ Hperm), Hmem).
      destruct Hl as [E|Hl]; [subst doc; lia|].
      apply StronglySorted_inv in Hsorted. destruct Hsorted as [_ Hall].
      rewrite Forall_forall in Hall. specialize (Hall latest Hl).
      unfold ascendingBy in Hall. lia.
  - destruct (historyHandler_documents db name) as [docs [Hresp [Hperm Hsorted]]].
    rewrite Hresp.
    destruct (@exists_last _ docs) as [front [x Hdocs]].
    { intros E. subst docs. apply Permutation_sym, Permutation_nil in Hperm.
      rewrite Hperm in Hmem. destruct Hmem. }
    subst docs. exists (map toPoint front).
    rewrite map_app. simpl.
    assert (Hx : In x (snapshotsOf db name)).
    { apply (Permutation_in _ (Permutation_sym Hperm)), in_or_app.
      right. left. reflexivity. }
    destruct (Hof x Hx) as [E|Hlt]; [subst x; reflexivity|].
    exfalso.
    assert (Hl : In latest (front ++ [x]))
      by (apply (Permutation_in _ Hperm), Hmem).
    apply in_app_or in Hl. destruct Hl as [Hl|[E|[]]]; [|subst x; lia].
    apply StronglySorted_last in Hsorted.
    rewrite Forall_forall in Hsorted. specialize (Hsorted latest Hl).
    unfold ascendingBy in Hsorted. lia.
Qed.

Lemma history_and_metrics_out_of_order :
  metricsHandler outOfOrder (titleLabel 1)
  = json (metricsOf (mkDoc 0 (snapshotOf scenario1Later)))
  /\ exists earlier,
       historyHandler outOfOrder (titleLabel 1)
       = Json200 (earlier ++ [mkHistoryPoint 19800 9]).
Proof.
  apply (@history_ends_where_metrics_are outOfOrder (titleLabel 1)
           (mkDoc 0 (snapshotOf scenario1Later))).
  - left. reflexivity.
  - reflexivity.
  - intros d [E|[E|[]]] _; subst d.
    + left. reflexivity.
    + right. reflexivity.
Defined.

(** X13. The titles endpoint answers with the number and name of every
    title of the publisher's index, in ascending order of the number; when
    the request to the publisher fails it answers 500 with that failure. *)
Theorem titles_sorted_by_number (rows : list TitleRow) (e : error) :
  (exists titles,
      titlesHandler (Ok rows) = Json200 titles
      /\ Permutation (map summarize rows) titles
      /\ StronglySorted (ascendingBy summaryNumber) titles)
  /\ titlesHandler (Rejected e) = Status500 (RejectedWith e).
Proof.
  split; [|reflexivity]. unfold titlesHandler.
  destruct (sort_total summaryNumber byNumber (map summarize rows))
    as [out [Hout [Hperm Hsorted]]]; [reflexivity|].
  rewrite Hout. exists out. repeat split; assumption.
Qed.

(* ------------------------------------------------------------------------- *)
(** ** The dashboard page                                                    *)
(* ------------------------------------------------------------------------- *)

Lemma firstn_min A n (l : list A) : firstn (Nat.min n (length l)) l = firstn n l.
Proof.
  destruct (Nat.le_ge_cases n (length l)) as [H|H].
  - rewrite Nat.min_l by exact H. reflexivity.
  - rewrite Nat.min_r by exact H. rewrite firstn_all, firstn_all2 by exact H.
    reflexivity.
Qed.

(** A page is the ten entries after the pages before it. *)
Lemma slice_page A (l : list A) (p : Z) :
  (1 <= p)%Z ->
  slice l ((p - 1) * pageSize) (p * pageSize)
  = firstn 10 (skipn (10 * Z.to_nat (p - 1)) l).
Proof.
  intros Hp. unfold slice, pageSize.
  destruct (Z.ltb_spec ((p - 1) * 10) 0) as [H|_]; [lia|].
  destruct (Z.ltb_spec (p * 10) 0) as [H|_]; [lia|].
  set (len := Z.of_nat (length l)).
  destruct (Z.le_gt_cases len ((p - 1) * 10)) as [Hout|Hin].
  - rewrite (Z.min_r ((p - 1) * 10) len) by exact Hout.
    rewrite !skipn_all2 by (unfold len in *; lia).
    rewrite !firstn_nil. reflexivity.
  - rewrite (Z.min_l ((p - 1) * 10) len) by lia.
    replace (Z.to_nat ((p - 1) * 10)) with (10 * Z.to_nat (p - 1))%nat by lia.
    rewrite <- (firstn_min 10 (skipn (10 * Z.to_nat (p - 1)) l)). f_equal.
    rewrite length_skipn. unfold len in *. lia.
Qed.

Lemma chunks_concat A m : forall (l : list A),
  (length l <= 10 * m)%nat ->
  concat (map (fun i => firstn 10 (skipn (10 * i) l)) (seq 0 m)) = l.
Proof.
  induction m as [|m IH]; intros l Hl.
  - destruct l; [reflexivity|simpl in Hl; lia].
  - rewrite <- cons_seq, <- seq_shift. cbn [map concat]. rewrite map_map.
    rewrite Nat.mul_0_r. cbn [skipn].
    transitivity (firstn 10 l ++ skipn 10 l); [|apply firstn_skipn].
    f_equal.
    transitivity (concat (map (fun i => firstn 10 (skipn (10 * i) (skipn 10 l)))
                              (seq 0 m))).
    + f_equal. apply map_ext. intros i.
      rewrite skipn_skipn. do 2 f_equal. lia.
    + apply IH. rewrite length_skipn. lia.
Qed.

Lemma pagesFor_bounds n :
  (Z.of_nat n <= 10 * pagesFor n)%Z
  /\ (10 * (pagesFor n - 1) < Z.of_nat n)%Z
  /\ (0 <= pagesFor n)%Z.
Proof.
  unfold pagesFor, pageSize.
  pose proof (Z.div_mod (Z.of_nat n + 10 - 1) 10 ltac:(lia)) as H.
  pose proof (Z.mod_pos_bound (Z.of_nat n + 10 - 1) 10 ltac:(lia)) as Hb.
  lia.
Qed.

(** X14. The pages cut the filtered list into consecutive runs of ten:
    read one after the other, pages 1 to the last give back the filtered
    list, so that every match is on exactly one page; each of these pages
    holds between one and ten names, and a page past the last is empty. *)
Theorem pages_partition_the_matches
        (toLowerCase : jsstring -> jsstring)
        (agencies : list jsstring) (term : jsstring) :
  let shown p := paged toLowerCase agencies (mkView p term) in
  let last := totalPages toLowerCase agencies term in
  concat (map (fun i => shown (Z.of_nat i)) (seq 1 (Z.to_nat last)))
  = filteredAgencies toLowerCase agencies term
  /\ (forall p, (1 <= p <= last)%Z ->
                (1 <= length (shown p) <= 10)%nat)
  /\ (forall p, (last < p)%Z -> (1 <= p)%Z -> shown p = []).
Proof.
  intros shown last.
  set (l := filteredAgencies toLowerCase agencies term).
  assert (Hshown : forall p, (1 <= p)%Z ->
            shown p = firstn 10 (skipn (10 * Z.to_nat (p - 1)) l)).
  { intros p Hp. unfold shown, paged. simpl. apply slice_page, Hp. }
  destruct (pagesFor_bounds (length l)) as [Hup [Hlow Hnn]].
  fold l in last. change (pagesFor (length l)) with last in *.
  split; [|split].
  - transitivity (concat (map (fun i => firstn 10 (skipn (10 * i) l))
                              (seq 0 (Z.to_nat last))));
      [|apply chunks_concat; lia].
    rewrite <- seq_shift, map_map. f_equal. apply map_ext. intros i.
    rewrite Hshown by lia. do 3 f_equal. lia.
  - intros p Hp. rewrite Hshown by lia.
    rewrite length_firstn, length_skipn. lia.
  - intros p Hlast Hp. rewrite Hshown by exact Hp.
    rewrite skipn_all2 by lia. apply firstn_nil.
Qed.

Lemma handle_keeps_page_in_range toLowerCase agencies v c :
  (1 <= page v <= Z.max 1 (totalPages toLowerCase agencies (searchTerm v)))%Z ->
  (1 <= page (handle toLowerCase agencies v c)
   <= Z.max 1 (totalPages toLowerCase agencies
                          (searchTerm (handle toLowerCase agencies v c))))%Z.
Proof.
  intros Hv. destruct c as [| |term]; simpl.
  - destruct (Z.leb_spec (page v) 1); simpl; lia.
  - destruct (Z.leb_spec (totalPages toLowerCase agencies (searchTerm v))
                         (page v)); simpl; lia.
  - lia.
Qed.

(** X15. Whatever the visitor clicks or types, starting from the first
    page, the page number stays between 1 and the number of pages of the
    current search (1 when there is no match), and the page shown is never
    empty while the search has matches. *)
Theorem clicks_keep_a_shown_page
        (toLowerCase : jsstring -> jsstring)
        (agencies : list jsstring) (clicks : list click) :
  let v := fold_left (handle toLowerCase agencies) clicks initialView in
  (1 <= page v
   <= Z.max 1 (totalPages toLowerCase agencies (searchTerm v)))%Z
  /\ (filteredAgencies toLowerCase agencies (searchTerm v) <> [] ->
      paged toLowerCase agencies v <> []).
Proof.
  intros v.
  assert (Hrange : (1 <= page v
            <= Z.max 1 (totalPages toLowerCase agencies (searchTerm v)))%Z).
  { unfold v. clear v.
    assert (H0 : (1 <= page initialView
              <= Z.max 1 (totalPages toLowerCase agencies
                                     (searchTerm initialView)))%Z)
      by (simpl; lia).
    revert H0. generalize initialView.
    induction clicks as [|c clicks IH]; intros v0 H0; [exact H0|].
    simpl. apply IH, handle_keeps_page_in_range, H0. }
  split; [exact Hrange|].
  intros Hne Hempty.
  set (l := filteredAgencies toLowerCase agencies (searchTerm v)) in *.
  destruct (pagesFor_bounds (length l)) as [_ [Hlow _]].
  unfold totalPages in Hrange. fold l in Hrange.
  assert (Hlen : (0 < length l)%nat) by (destruct l; [congruence|simpl; lia]).
  unfold paged in Hempty. fold l in Hempty.
  rewrite slice_page in Hempty by lia.
  apply (f_equal (@length _)) in Hempty.
  rewrite length_firstn, length_skipn in Hempty. cbn [length] in Hempty.
  lia.
Qed.





(* ------------------------------------------------------------------------- *)
(** ** Texts without words                                                   *)
(* ------------------------------------------------------------------------- *)

Lemma countWords_zero_iff s : countWords s = 0%nat <-> AllWhiteSpace s.
Proof.
  split; [apply countWords_zero|].
  intros H. rewrite countWords_tokens.
  rewrite <- (app_nil_r s), tokensFrom_leading by exact H. reflexivity.
Qed.

Lemma Trimmed_white_space s : Trimmed s -> AllWhiteSpace s -> s = [].
Proof.
  intros [Hhead _] Hws. destruct s as [|c t]; [reflexivity|].
  inversion Hws as [|? ? Hc _]; subst.
  rewrite (Hhead c t eq_refl) in Hc. discriminate.
Qed.

Lemma list_sum_zero l : list_sum l = 0%nat <-> Forall (fun n => n = 0%nat) l.
Proof.
  induction l as [|n l IH]; simpl.
  - split; [constructor|reflexivity].
  - split.
    + intros H. constructor; [lia|]. apply IH. lia.
    + intros H. inversion H as [|? ? Hn Hl]; subst. apply IH in Hl. lia.
Qed.

(** X17. A text has word count 0, the case in which both densities are
    NaN, exactly when it consists of white space only. For a document with
    sections this happens exactly when the text of every section is empty;
    for a document without sections, when the raw document is white space. *)
Theorem zero_words_exactly_when_blank (xml : jsstring) (result : Parsed) :
  (forall s, countWords s = 0%nat <-> AllWhiteSpace s)
  /\ (sectionsOf result <> [] ->
      (countWords (extractContent xml result) = 0%nat
       <-> Forall (fun sec => sectionText sec = []) (sectionsOf result)))
  /\ (sectionsOf result = [] ->
      (countWords (extractContent xml result) = 0%nat <-> AllWhiteSpace xml)).
Proof.
  split; [apply countWords_zero_iff|]. split.
  - intros Hne.
    rewrite (@countWords_sections xml result Hne), list_sum_zero, Forall_map.
    split; intros H; (eapply Forall_impl; [|exact H]); intros sec Hsec.
    + apply Trimmed_white_space.
      * rewrite sectionText_shape. apply trim_trimmed.
      * apply countWords_zero_iff, Hsec.
    + cbv beta. rewrite Hsec. reflexivity.
  - intros He. unfold extractContent. rewrite He. simpl.
    apply countWords_zero_iff.
Qed.
